(** * Orders of magnitude: expressions, estimates and the Littlewood-Paley
      property

    A shallow embedding of [src/ver_1_0/expressions.py],
    [src/ver_1_0/estimates.py] and [src/littlewood_paley.py].

    Python objects become values of inductive types, [Fraction] becomes [Q]
    (kept in lowest terms with [Qred]), a raised exception becomes the
    [Err] outcome of a small error monad, and the recursion of [simp], which
    is not structural (a power of a product is re-normalised after the
    exponent has been distributed), is driven by a fuel counter whose
    exhaustion is the separate outcome [OutOfFuel]. *)

From Stdlib Require Import List String QArith Lia Bool Arith Permutation.
Import ListNotations.
Close Scope Q_scope.
Open Scope string_scope.
Open Scope list_scope.
Open Scope nat_scope.

Set Warnings "-register-all".

(** ** Outcomes *)

Inductive exn : Type :=
| AssertionError (msg : string)
| ValueError (msg : string).

Inductive result (A : Type) : Type :=
| Ok (a : A)
| Err (e : exn)
| OutOfFuel.

Arguments Ok {A} a.
Arguments Err {A} e.
Arguments OutOfFuel {A}.

Definition bind {A B : Type} (m : result A) (k : A -> result B) : result B :=
  match m with
  | Ok a => k a
  | Err e => Err e
  | OutOfFuel => OutOfFuel
  end.

Notation "x <- m ;; k" := (bind m (fun x => k))
  (at level 61, m at next level, right associativity).

(** ** Expressions *)

(** [fractions.Fraction]: exact rationals, compared by value. *)
Definition Fraction : Type := Q.

Definition Fraction_eq (p q : Fraction) : bool := Qeq_bool p q.
Definition Fraction_add (p q : Fraction) : Fraction := Qred (p + q)%Q.
Definition Fraction_mul (p q : Fraction) : Fraction := Qred (p * q)%Q.

Arguments Fraction_eq (p q)%_Q.
Arguments Fraction_add (p q)%_Q.
Arguments Fraction_mul (p q)%_Q.

(** The class hierarchy under [Expression].  The constructor of the class
    [Variable] is written [Var].  The value of a [Constant] is an [int] or
    a [float] in the source; it is represented by the rational it denotes. *)
Inductive Expression : Type :=
| Var (name : string)
| Constant (value : Q)
| Max (operands : list Expression)
| Min (operands : list Expression)
| Add (summands : list Expression)
| Mul (factors : list Expression)
| Div (numerator denominator : Expression)
| Power (base : Expression) (exponent : Fraction).

Arguments Constant value%_Q.
Arguments Power base exponent%_Q.

(** What the constructors assert: [Constant] wants a positive value, [Max],
    [Min] and [Add] want at least one operand.  [Mul] accepts the empty
    product. *)
Fixpoint wf (e : Expression) : bool :=
  match e with
  | Var _ => true
  | Constant v => negb (Qle_bool v 0)
  | Max ops | Min ops | Add ops =>
      match ops with [] => false | _ :: _ => forallb wf ops end
  | Mul fs => forallb wf fs
  | Div a b => wf a && wf b
  | Power b _ => wf b
  end.

(** The measure under which [simp] terminates: the number of nodes, not
    counting [Power] nodes (distributing an exponent over a product
    multiplies them) and counting [Add] and [Div] twice (they are rewritten
    before they are simplified). *)
Fixpoint weight (e : Expression) : nat :=
  match e with
  | Var _ | Constant _ => 1
  | Max ops | Min ops | Mul ops => S (list_sum (map weight ops))
  | Add ops => S (S (list_sum (map weight ops)))
  | Div a b => S (S (weight a + weight b))
  | Power b _ => weight b
  end.

(** Induction over expressions with the hypothesis available for every
    element of an operand list. *)
Section Expression_induction.
Variable P : Expression -> Prop.
Hypothesis HVar : forall n, P (Var n).
Hypothesis HConstant : forall v, P (Constant v).
Hypothesis HMax : forall ops, Forall P ops -> P (Max ops).
Hypothesis HMin : forall ops, Forall P ops -> P (Min ops).
Hypothesis HAdd : forall ops, Forall P ops -> P (Add ops).
Hypothesis HMul : forall fs, Forall P fs -> P (Mul fs).
Hypothesis HDiv : forall a b, P a -> P b -> P (Div a b).
Hypothesis HPower : forall b q, P b -> P (Power b q).

Fixpoint Expression_nested_ind (e : Expression) : P e :=
  let all := fix all (l : list Expression) : Forall P l :=
               match l with
               | [] => Forall_nil P
               | x :: l' => Forall_cons x (Expression_nested_ind x) (all l')
               end in
  match e with
  | Var n => HVar n
  | Constant v => HConstant v
  | Max ops => HMax ops (all ops)
  | Min ops => HMin ops (all ops)
  | Add ops => HAdd ops (all ops)
  | Mul fs => HMul fs (all fs)
  | Div a b => HDiv a b (Expression_nested_ind a) (Expression_nested_ind b)
  | Power b q => HPower b q (Expression_nested_ind b)
  end.
End Expression_induction.

(** ** Structural equality *)

Section set_defeq.
Context {A : Type}.
Variable eqv : A -> A -> bool.

(** Modelled from the spec: [set_defeq] is imported from the absent module
    [type].  Two collections are equivalent iff some bijection between
    them pairs up [defeq] elements: every element of [xs] in turn is
    matched with one of the elements of [ys] not used so far, all choices
    being tried, and nothing of [ys] may be left over. *)
Fixpoint set_defeq (xs ys : list A) {struct xs} : bool :=
  match xs with
  | [] => match ys with [] => true | _ :: _ => false end
  | x :: xs' =>
      (fix pick (seen rest : list A) {struct rest} : bool :=
         match rest with
         | [] => false
         | y :: rest' =>
             (eqv x y && set_defeq xs' (rev_append seen rest'))
             || pick (y :: seen) rest'
         end) [] ys
  end.
End set_defeq.

(** Modelled from the spec: [Variable] defines no [defeq] of its own and
    inherits it from the absent base class [Type].  A variable is a leaf
    identified by its name, and different variants are never [defeq]. *)
Definition Variable_defeq (name : string) (other : Expression) : bool :=
  match other with
  | Var name' => String.eqb name name'
  | _ => false
  end.

(** [defeq], one clause per class: the methods of [Constant], [Max], [Min],
    [Add], [Mul], [Div] and [Power], each of which answers [False] on an
    object of another class. *)
Fixpoint defeq (a b : Expression) {struct a} : bool :=
  match a, b with
  | Var n, _ => Variable_defeq n b
  | Constant v, Constant w => Qeq_bool v w
  | Max xs, Max ys => set_defeq defeq xs ys
  | Min xs, Min ys => set_defeq defeq xs ys
  | Add xs, Add ys => set_defeq defeq xs ys
  | Mul xs, Mul ys => set_defeq defeq xs ys
  | Div n d, Div n' d' => defeq n n' && defeq d d'
  | Power b q, Power b' q' => defeq b b' && Fraction_eq q q'
  | _, _ => false
  end.

(** Modelled from the spec: [add_to] comes from the absent base class
    [Type]; it adds the object to a set keyed by [defeq], so an object that
    is [defeq] to a member is not added.  A Python set has no order of its
    own: the model keeps the members in the order of their insertion. *)
Definition add_to (x : Expression) (s : list Expression) : list Expression :=
  if existsb (defeq x) s then s else s ++ [x].

(** ** Operators on expressions *)

Definition isConstant (e : Expression) : bool :=
  match e with Constant _ => true | _ => false end.

(** [Expression.mul]: products are flattened as they are built. *)
Definition mul (self other : Expression) : Expression :=
  Mul ((match self with Mul fs => fs | _ => [self] end)
       ++ (match other with Mul fs => fs | _ => [other] end)).

(** [Expression.add]: sums are flattened as they are built. *)
Definition add (self other : Expression) : Expression :=
  Add ((match self with Add ss => ss | _ => [self] end)
       ++ (match other with Add ss => ss | _ => [other] end)).

Definition sqrt (expr : Expression) : Expression := Power expr (1 # 2).

Definition bracket (expr : Expression) : Expression :=
  sqrt (Add [Constant 1; Power expr 2]).

(** ** Estimates and statements *)

(** The five relation symbols ["<~"], ["<<"], ["~"], [">~"] and [">>"]; the
    constructor of [Estimate] asserts that its operator is one of them. *)
Inductive Operator : Type :=
| op_lesssim
| op_ll
| op_asymp
| op_gtrsim
| op_gg.

Definition Operator_symbol (o : Operator) : string :=
  match o with
  | op_lesssim => "<~"
  | op_ll => "<<"
  | op_asymp => "~"
  | op_gtrsim => ">~"
  | op_gg => ">>"
  end.

Definition Operator_eqb (o o' : Operator) : bool :=
  match o, o' with
  | op_lesssim, op_lesssim | op_ll, op_ll | op_asymp, op_asymp
  | op_gtrsim, op_gtrsim | op_gg, op_gg => true
  | _, _ => false
  end.

Record Estimate : Type := mkEstimate {
  left : Expression;
  operator : Operator;
  right : Expression
}.

(** Modelled from the spec: [Bool], [And] and [Or] come from the absent
    module [statements], the boolean-statement framework; they are taken as
    plain constructors that hold what they are given.  Whether [And] or
    [Or] keeps a single argument wrapped is not visible from the sources,
    and nothing below is made to rest on it.  [And] receives the members of
    a Python set, kept here in the order of their insertion. *)
Inductive Statement : Type :=
| Bool (value : bool)
| Est (e : Estimate)
| And (conjuncts : list Statement)
| Or (disjuncts : list Statement).

(** The hypothesis set handed to [simp]; no rule inspects it. *)
Definition Hypotheses : Type := list Statement.

Definition Estimate_defeq (self other : Estimate) : bool :=
  defeq (left self) (left other) && defeq (right self) (right other)
  && Operator_eqb (operator self) (operator other).

Definition expression_le (self other : Expression) : Estimate :=
  mkEstimate self op_lesssim other.
Definition expression_lt (self other : Expression) : Estimate :=
  mkEstimate self op_ll other.
Definition expression_ge (self other : Expression) : Estimate :=
  mkEstimate self op_gtrsim other.
Definition expression_gt (self other : Expression) : Estimate :=
  mkEstimate self op_gg other.
Definition asymp (self other : Expression) : Estimate :=
  mkEstimate self op_asymp other.

Definition negate (self : Estimate) : Statement :=
  match operator self with
  | op_lesssim => Est (mkEstimate (left self) op_gg (right self))
  | op_ll => Est (mkEstimate (left self) op_gtrsim (right self))
  | op_asymp => Or [Est (mkEstimate (left self) op_gg (right self));
                    Est (mkEstimate (left self) op_ll (right self))]
  | op_gtrsim => Est (mkEstimate (left self) op_ll (right self))
  | op_gg => Est (mkEstimate (left self) op_lesssim (right self))
  end.

(** ** Normalisation *)

Section simp_steps.
(** The recursive call [x.simp(hypotheses)]. *)
Variable rec : Expression -> result Expression.

(** The loop of [Max.simp] and [Min.simp] that fills [new_operands];
    [nested] recognises an operand of the same class and gives its
    operands. *)
Fixpoint collect_operands (nested : Expression -> option (list Expression))
    (operands new_operands : list Expression) : result (list Expression) :=
  match operands with
  | [] => Ok new_operands
  | op :: rest =>
      op' <- rec op ;;
      collect_operands nested rest
        (match nested op' with
         | Some sub_ops =>
             fold_left (fun s sub_op => add_to sub_op s) sub_ops new_operands
         | None => add_to op' new_operands
         end)
  end.

(** First loop of [Mul.simp]: flatten nested products, delete constants. *)
Fixpoint flatten_factors (factors : list Expression)
    : result (list Expression) :=
  match factors with
  | [] => Ok []
  | factor :: rest =>
      factor' <- rec factor ;;
      rest' <- flatten_factors rest ;;
      Ok (match factor' with
          | Mul sub_factors => sub_factors ++ rest'
          | Constant _ => rest'
          | _ => factor' :: rest'
          end)
  end.

(** Third loop of [Mul.simp]: simplify the monomials, remove constants. *)
Fixpoint final_factors (terms : list (Expression * Fraction))
    : result (list Expression) :=
  match terms with
  | [] => Ok []
  | (base, exponent) :: rest =>
      monomial <- rec (Power base exponent) ;;
      rest' <- final_factors rest ;;
      Ok (if isConstant monomial then rest' else monomial :: rest')
  end.
End simp_steps.

Definition Max_operands (e : Expression) : option (list Expression) :=
  match e with Max ops => Some ops | _ => None end.

Definition Min_operands (e : Expression) : option (list Expression) :=
  match e with Min ops => Some ops | _ => None end.

(** The end of [Max.simp] and [Min.simp]: the assertion, the single operand
    returned as it is, and the rebuilt [Max] or [Min].  The source rebuilds
    from the Python set in whatever order it iterates; the list
    [new_operands], in insertion order, stands for one such order, so what
    is said of a rebuilt value is to be read up to the order of its
    operands.  [rebuild_in] and [simp_in] below take the order as an
    argument. *)
Definition rebuild (class_name : string)
    (build : list Expression -> Expression)
    (new_operands : list Expression) : result Expression :=
  match new_operands with
  | [] =>
      Err (AssertionError
             (class_name
              ++ " must have at least one operand after simplification.")%string)
  | [op] => Ok op
  | _ :: _ :: _ => Ok (build new_operands)
  end.

(** The dictionary [terms] of [Mul.simp], in insertion order: the exponent
    goes to the first key that the base is [defeq] to, or the base becomes a
    new key. *)
Fixpoint gather_term (base : Expression) (exponent : Fraction)
    (terms : list (Expression * Fraction)) : list (Expression * Fraction) :=
  match terms with
  | [] => [(base, exponent)]
  | (b, e) :: rest =>
      if defeq base b then (b, Fraction_add e exponent) :: rest
      else (b, e) :: gather_term base exponent rest
  end.

Definition split_power (factor : Expression) : Expression * Fraction :=
  match factor with
  | Power base exponent => (base, exponent)
  | _ => (factor, 1%Q)
  end.

(** Second loop of [Mul.simp]. *)
Definition gather (new_factors : list Expression)
    : list (Expression * Fraction) :=
  fold_left (fun terms factor =>
               gather_term (fst (split_power factor))
                           (snd (split_power factor)) terms)
            new_factors [].

Definition Mul_simp (rec : Expression -> result Expression)
    (factors : list Expression) : result Expression :=
  new_factors <- flatten_factors rec factors ;;
  final <- final_factors rec (gather new_factors) ;;
  Ok (Mul final).

Definition Power_simp (rec : Expression -> result Expression)
    (base : Expression) (exponent : Fraction) : result Expression :=
  base' <- rec base ;;
  if Fraction_eq exponent 1%Q then Ok base'
  else if Fraction_eq exponent 0%Q || isConstant base' then Ok (Constant 1)
  else match base' with
       | Power b q => Ok (Power b (Fraction_mul q exponent))
       | Mul fs => rec (Mul (map (fun factor => Power factor exponent) fs))
       | _ => Ok (Power base' exponent)
       end.

(** Modelled from the spec: [Variable] defines no [simp] of its own and
    inherits it from the absent base class [Type].  A variable is already
    normal and is returned as it is. *)
Definition Variable_simp (name : string) : result Expression :=
  Ok (Var name).

(** [simp], one clause per class, over the recursive call [rec]. *)
Definition simp_class (rec : Expression -> result Expression)
    (e : Expression) : result Expression :=
  match e with
  | Var name => Variable_simp name
  | Constant _ => Ok (Constant 1)
  | Max operands =>
      new_operands <- collect_operands rec Max_operands operands [] ;;
      rebuild "Max" Max new_operands
  | Min operands =>
      new_operands <- collect_operands rec Min_operands operands [] ;;
      rebuild "Min" Min new_operands
  | Add summands =>
      match summands with
      | [] => Err (AssertionError "Max must have at least one operand.")
      | _ :: _ => rec (Max summands)
      end
  | Mul factors => Mul_simp rec factors
  | Div numerator denominator =>
      rec (mul numerator (Power denominator (-1)))
  | Power base exponent => Power_simp rec base exponent
  end.

(** [e.simp(hypotheses)] with [fuel] levels of nested calls allowed. *)
Fixpoint simp (fuel : nat) (e : Expression) (hypotheses : Hypotheses)
    {struct fuel} : result Expression :=
  match fuel with
  | O => OutOfFuel
  | S fuel' => simp_class (fun x => simp fuel' x hypotheses) e
  end.

(** *** Any iteration order

    [Max.simp] and [Min.simp] end on a [Max] or a [Min] of the members of
    the Python set [new_operands]: the operands of the rebuilt value come in
    the order in which that set is iterated, which the code does not fix.
    [order self s] is the order in which the set [s], filled while [self]
    is simplified, is iterated; [simp_in order] is [simp] with every
    rebuilt value taking its operands in that order. *)

(** The end of [Max.simp] and [Min.simp], the set being iterated by
    [iterate]. *)
Definition rebuild_in (iterate : list Expression -> list Expression)
    (class_name : string) (build : list Expression -> Expression)
    (new_operands : list Expression) : result Expression :=
  match new_operands with
  | [] =>
      Err (AssertionError
             (class_name
              ++ " must have at least one operand after simplification.")%string)
  | [op] => Ok op
  | _ :: _ :: _ => Ok (build (iterate new_operands))
  end.

(** [simp], one clause per class: [Max.simp] and [Min.simp] with the set
    iterated in the given order, the other classes as in [simp_class]. *)
Definition simp_class_in
    (order : Expression -> list Expression -> list Expression)
    (rec : Expression -> result Expression) (e : Expression)
    : result Expression :=
  match e with
  | Max operands =>
      new_operands <- collect_operands rec Max_operands operands [] ;;
      rebuild_in (order e) "Max" Max new_operands
  | Min operands =>
      new_operands <- collect_operands rec Min_operands operands [] ;;
      rebuild_in (order e) "Min" Min new_operands
  | _ => simp_class rec e
  end.

(** [e.simp(hypotheses)] with [fuel] levels of nested calls allowed and
    sets iterated in the given order. *)
Fixpoint simp_in (order : Expression -> list Expression -> list Expression)
    (fuel : nat) (e : Expression) (hypotheses : Hypotheses)
    {struct fuel} : result Expression :=
  match fuel with
  | O => OutOfFuel
  | S fuel' => simp_class_in order (fun x => simp_in order fuel' x hypotheses) e
  end.

(** [Estimate.simp]: a [<~] or [<<] estimate is reversed and simplified
    again, which then takes the second half of the method. *)
Definition Estimate_reverse (self : Estimate) : Estimate :=
  match operator self with
  | op_lesssim => mkEstimate (right self) op_gtrsim (left self)
  | op_ll => mkEstimate (right self) op_gg (left self)
  | _ => self
  end.

(** The boolean of [Estimate.simp]: [self.operator in ("<~", ">~", "~")]. *)
Definition decided (o : Operator) : bool :=
  match o with
  | op_lesssim | op_gtrsim | op_asymp => true
  | op_ll | op_gg => false
  end.

Definition Estimate_normalize (fuel : nat) (self : Estimate)
    (hypotheses : Hypotheses) : result Statement :=
  ratio <- simp fuel (Div (left self) (right self)) hypotheses ;;
  if defeq ratio (Constant 1)
  then Ok (Bool (decided (operator self)))
  else Ok (Est (mkEstimate ratio (operator self) (Constant 1))).

Definition Estimate_simp (fuel : nat) (self : Estimate)
    (hypotheses : Hypotheses) : result Statement :=
  Estimate_normalize fuel (Estimate_reverse self) hypotheses.

(** ** The Littlewood-Paley property *)

(** [itertools.combinations(args, 2)]. *)
Fixpoint combinations2 {A : Type} (args : list A) : list (A * A) :=
  match args with
  | [] => []
  | a :: rest => map (pair a) rest ++ combinations2 rest
  end.

(** The set [conjuncts] built for one pair.  Its members are fresh
    [Estimate] objects, so the set keeps them all; they are listed in the
    order of their insertion, which stands for whatever order the Python
    set hands to [And]: what is said of them is to be read up to that
    order. *)
Definition LP_conjuncts (args : list Expression) (expr1 expr2 : Expression)
    : list Statement :=
  fold_left (fun conjuncts other_expr =>
               if negb (defeq other_expr expr1) && negb (defeq other_expr expr2)
               then conjuncts ++ [Est (expression_le other_expr expr1)]
               else conjuncts)
            args [Est (asymp expr1 expr2)].

Definition LP_too_few : exn :=
  AssertionError
    "Error: Littlewood-Paley constraints must involve at least two variables.".

(** [LP_property] of [estimates.py]. *)
Definition LP_property (args : list Expression) : result Statement :=
  if 1 <? List.length args
  then Ok (Or (map (fun pr => And (LP_conjuncts args (fst pr) (snd pr)))
                   (combinations2 args)))
  else Err LP_too_few.

(** [LittlewoodPaley.__new__] of [littlewood_paley.py], the builder over
    the ambient symbolic-object system.  The module [order_of_magnitude]
    that supplies [asymp] and [Theta] is not part of the sources: both,
    and the rendering [str], are parameters. *)
Section LittlewoodPaley.
Variables Expr Order Relation : Type.
Variable sym_asymp : Expr -> Expr -> Relation.
Variable Theta : Expr -> Order.
Variable str : Order -> string.

Record LittlewoodPaleyObject : Type := mkLittlewoodPaley {
  LP_args : list Order;
  LP_name : string
}.

Definition LittlewoodPaley_too_few : exn :=
  ValueError "LittlewoodPaley() requires at least two arguments.".

Definition LittlewoodPaley (args : list Expr)
    : result (Relation + LittlewoodPaleyObject) :=
  match args with
  | [] | [_] => Err LittlewoodPaley_too_few
  | [a; b] => Ok (inl (sym_asymp a b))
  | _ :: _ :: _ :: _ =>
      let newargs := map Theta args in
      Ok (inr (mkLittlewoodPaley newargs
                 ("LittlewoodPaley(" ++ String.concat ", " (map str newargs)
                  ++ ")")%string))
  end.
End LittlewoodPaley.


(** ** Vocabulary of the properties *)

(** [g] answers wherever [f] answers, and the same. *)
Definition extends (f g : Expression -> result Expression) : Prop :=
  forall x r, f x = Ok r -> g x = Ok r.

Definition total_weight (l : list Expression) : nat :=
  list_sum (map weight l).

(** [e.simp(hypotheses)] returns: some amount of fuel is enough, no
    exception is raised, and the value returned is again well formed and
    not heavier than [e]. *)
Definition normalises (hypotheses : Hypotheses) (e : Expression) : Prop :=
  exists fuel r,
    simp fuel e hypotheses = Ok r /\ wf r = true /\ weight r <= weight e.

(** The operators an estimate can carry once [Estimate.simp] has turned
    [<~] and [<<] around. *)
Definition oriented (o : Operator) : bool :=
  match o with
  | op_gtrsim | op_gg | op_asymp => true
  | op_lesssim | op_ll => false
  end.

(** The canonical form of a simplified estimate: a boolean constant, or an
    estimate against [Constant 1] whose operator satisfies [allowed]. *)
Definition canonical (allowed : Operator -> bool) (s : Statement) : Prop :=
  match s with
  | Bool _ => True
  | Est e => right e = Constant 1 /\ allowed (operator e) = true
  | And _ | Or _ => False
  end.

(** The operator set [{<~, >~, ~}] of the specification's canonical form. *)
Definition spec_operators (o : Operator) : bool :=
  match o with
  | op_lesssim | op_gtrsim | op_asymp => true
  | op_ll | op_gg => false
  end.

(** An outcome that is not an exception, and whose value, if there is one,
    satisfies [P]. *)
Definition no_exception {A : Type} (P : A -> Prop) (m : result A) : Prop :=
  match m with
  | Ok a => P a
  | Err _ => False
  | OutOfFuel => True
  end.

(** [rec] raises nothing on well-formed expressions and keeps them well
    formed. *)
Definition safe (rec : Expression -> result Expression) : Prop :=
  forall x, wf x = true -> no_exception (fun r => wf r = true) (rec x).

Ltac bind_inv H :=
  match type of H with
  | bind ?m _ = Ok _ =>
      let a := fresh "a" in
      let Ha := fresh "Ha" in
      destruct m as [a | |] eqn:Ha;
      [simpl in H | discriminate H | discriminate H]
  end.

(** ** The shape of what [simp] returns *)

Definition isMax (e : Expression) : bool :=
  match e with Max _ => true | _ => false end.

Definition isMin (e : Expression) : bool :=
  match e with Min _ => true | _ => false end.

(** A variable, a [Max] or a [Min]: what is left for the base of a power
    once constants, powers and products have been taken care of. *)
Definition isAtom (e : Expression) : bool :=
  match e with Var _ | Max _ | Min _ => true | _ => false end.

(** The constant [1], as [Constant.simp] writes it. *)
Definition isOne (v : Q) : bool :=
  (Qnum v =? 1)%Z && (Qden v =? 1)%positive.

(** No member is [defeq] to a member inserted before it: the members are in
    the order of their insertion, and [distinct] asks each later member the
    question that [add_to] asks. *)
Fixpoint distinct (s : list Expression) : bool :=
  match s with
  | [] => true
  | x :: s' => forallb (fun y => negb (defeq y x)) s' && distinct s'
  end.

(** The shape of a normalised expression, at every depth: no [Add] and no
    [Div]; no constant but [1]; a [Max] (a [Min]) has at least two operands,
    none of them a [Max] (a [Min]) and no two of them duplicates; a product
    has no constant factor; the base of a power is a variable, a [Max] or a
    [Min], and its exponent is not zero. *)
Fixpoint normal (e : Expression) : bool :=
  match e with
  | Var _ => true
  | Constant v => isOne v
  | Max ops =>
      (2 <=? List.length ops) && forallb normal ops
      && forallb (fun o => negb (isMax o)) ops && distinct ops
  | Min ops =>
      (2 <=? List.length ops) && forallb normal ops
      && forallb (fun o => negb (isMin o)) ops && distinct ops
  | Add _ => false
  | Mul fs => forallb normal fs && forallb (fun f => negb (isConstant f)) fs
  | Div _ _ => false
  | Power b q => normal b && isAtom b && negb (Fraction_eq q 0)
  end.

(** The set [new_operands] while the loop of [Max.simp] or [Min.simp] runs:
    normalised members, none of the class [same], no duplicates. *)
Definition operand_set (same : Expression -> bool) (s : list Expression)
    : bool :=
  forallb normal s && forallb (fun o => negb (same o)) s && distinct s.

(** [e.simp(hypotheses)] returns [r]. *)
Definition returns (hypotheses : Hypotheses) (e r : Expression) : Prop :=
  exists fuel, simp fuel e hypotheses = Ok r.

(** An iteration order hands out the members of the set, each once. *)
Definition iteration_order
    (order : Expression -> list Expression -> list Expression) : Prop :=
  forall (self : Expression) (s : list Expression),
    Permutation (order self s) s.

(** [e.simp(hypotheses)] returns [r] when sets are iterated in the given
    order. *)
Definition returns_in
    (order : Expression -> list Expression -> list Expression)
    (hypotheses : Hypotheses) (e r : Expression) : Prop :=
  exists fuel, simp_in order fuel e hypotheses = Ok r.

(** One turn of the loop of [Max.simp] or [Min.simp]: what the simplified
    operand [op] adds to [new_operands]. *)
Definition absorb (nested : Expression -> option (list Expression))
    (op : Expression) (new_operands : list Expression) : list Expression :=
  match nested op with
  | Some sub_ops =>
      fold_left (fun s sub_op => add_to sub_op s) sub_ops new_operands
  | None => add_to op new_operands
  end.


(** ** Powers of one variable *)

(** [sum(qs, Fraction(0))]. *)
Definition Fraction_sum (qs : list Fraction) : Fraction :=
  fold_left Fraction_add qs 0%Q.

(** The rational that a list of exponents adds up to. *)
Definition exponent_total (qs : list Fraction) : Q :=
  fold_right Qplus 0%Q qs.

(** What [Power(x, q)] simplifies to for a variable [x]. *)
Definition monomial (name : string) (q : Fraction) : Expression :=
  if Fraction_eq q 1 then Var name
  else if Fraction_eq q 0 then Constant 1
  else Power (Var name) q.

(** One turn of the second loop of [Mul.simp]. *)
Definition gather_step (terms : list (Expression * Fraction))
    (factor : Expression) : list (Expression * Fraction) :=
  gather_term (fst (split_power factor)) (snd (split_power factor)) terms.

(** What a simplified factor leaves in the list [new_factors] of
    [Mul.simp]. *)
Definition surviving_factors (factor : Expression) : list Expression :=
  match factor with
  | Mul sub_factors => sub_factors
  | Constant _ => []
  | _ => [factor]
  end.

(** Two expressions each of which is [defeq] to the other: what can be
    said of two results that differ at most in the order in which a set
    was iterated. *)
Definition defeq_both (a b : Expression) : Prop :=
  defeq a b = true /\ defeq b a = true.

(** ** Reading a statement *)

(** The statements a disjunction is made of; a statement that is not an
    [Or] is its own only disjunct.  Read this way, a result says the same
    whether or not [Or] keeps a single argument wrapped. *)
Definition disjuncts (s : Statement) : list Statement :=
  match s with
  | Or l => l
  | _ => [s]
  end.

(** The statements a conjunction is made of; a statement that is not an
    [And] is its own only conjunct. *)
Definition conjuncts (s : Statement) : list Statement :=
  match s with
  | And l => l
  | _ => [s]
  end.

(** * Properties *)

(** ** The error monad and fuel *)

Lemma bind_Ok {A B : Type} (m : result A) (k : A -> result B) (b : B) :
  bind m k = Ok b -> exists a, m = Ok a /\ k a = Ok b.
Proof.
  destruct m as [a | e | ]; simpl; intros H; try discriminate.
  exists a; split; [reflexivity | exact H].
Qed.

Lemma collect_operands_extends f g nested :
  extends f g ->
  forall ops acc r,
    collect_operands f nested ops acc = Ok r ->
    collect_operands g nested ops acc = Ok r.
Proof.
  intros Hfg ops; induction ops as [| op rest IH]; intros acc r H; simpl in *.
  - exact H.
  - bind_inv H. rewrite (Hfg _ _ Ha); simpl. apply IH, H.
Qed.

Lemma flatten_factors_extends f g :
  extends f g ->
  forall fs r, flatten_factors f fs = Ok r -> flatten_factors g fs = Ok r.
Proof.
  intros Hfg fs; induction fs as [| x rest IH]; intros r H; simpl in *.
  - exact H.
  - bind_inv H. rewrite (Hfg _ _ Ha); simpl.
    bind_inv H. rewrite (IH _ eq_refl); simpl. exact H.
Qed.

Lemma final_factors_extends f g :
  extends f g ->
  forall ts r, final_factors f ts = Ok r -> final_factors g ts = Ok r.
Proof.
  intros Hfg ts; induction ts as [| [b q] rest IH]; intros r H; simpl in *.
  - exact H.
  - bind_inv H. rewrite (Hfg _ _ Ha); simpl.
    bind_inv H. rewrite (IH _ eq_refl); simpl. exact H.
Qed.

Lemma Mul_simp_extends f g :
  extends f g ->
  forall fs r, Mul_simp f fs = Ok r -> Mul_simp g fs = Ok r.
Proof.
  intros Hfg fs r H; unfold Mul_simp in *.
  bind_inv H. rewrite (flatten_factors_extends f g Hfg _ _ Ha); simpl.
  bind_inv H. rewrite (final_factors_extends f g Hfg _ _ Ha0); simpl.
  exact H.
Qed.

Lemma Power_simp_extends f g :
  extends f g ->
  forall b q r, Power_simp f b q = Ok r -> Power_simp g b q = Ok r.
Proof.
  intros Hfg b q r H; unfold Power_simp in *.
  bind_inv H. rewrite (Hfg _ _ Ha); simpl.
  destruct (Fraction_eq q 1%Q); [exact H |].
  destruct (Fraction_eq q 0%Q || isConstant a); [exact H |].
  destruct a; try exact H. apply Hfg, H.
Qed.

Lemma simp_class_extends f g :
  extends f g -> extends (simp_class f) (simp_class g).
Proof.
  intros Hfg e r H. destruct e; simpl in *.
  - exact H.
  - exact H.
  - bind_inv H.
    rewrite (collect_operands_extends _ _ _ Hfg _ _ _ Ha). exact H.
  - bind_inv H.
    rewrite (collect_operands_extends _ _ _ Hfg _ _ _ Ha). exact H.
  - destruct summands; [discriminate |]. apply Hfg, H.
  - apply (Mul_simp_extends _ _ Hfg), H.
  - apply Hfg, H.
  - apply (Power_simp_extends _ _ Hfg), H.
Qed.

Lemma simp_S fuel hypotheses :
  extends (fun e => simp fuel e hypotheses)
          (fun e => simp (S fuel) e hypotheses).
Proof.
  induction fuel as [| n IH]; intros e r H; [discriminate |].
  change (simp_class (fun x => simp (S n) x hypotheses) e = Ok r).
  change (simp_class (fun x => simp n x hypotheses) e = Ok r) in H.
  exact (simp_class_extends _ _ IH e r H).
Qed.

Lemma simp_fuel_le n m hypotheses :
  n <= m ->
  extends (fun e => simp n e hypotheses) (fun e => simp m e hypotheses).
Proof.
  induction 1 as [| m Hle IH]; intros e r H.
  - exact H.
  - apply simp_S, IH, H.
Qed.

(** ** Weights and well-formedness of the intermediate collections *)

Lemma weight_pos e : 1 <= weight e.
Proof. induction e; simpl; lia. Qed.

Lemma total_weight_cons x l :
  total_weight (x :: l) = weight x + total_weight l.
Proof. reflexivity. Qed.

Lemma total_weight_app l l' :
  total_weight (l ++ l') = total_weight l + total_weight l'.
Proof.
  unfold total_weight. rewrite map_app, list_sum_app. reflexivity.
Qed.

Lemma forallb_wf_app l l' :
  forallb wf (l ++ l') = forallb wf l && forallb wf l'.
Proof. apply forallb_app. Qed.

Lemma add_to_nonempty x s : add_to x s <> [].
Proof.
  unfold add_to. destruct (existsb (defeq x) s) eqn:E.
  - destruct s; [discriminate | discriminate].
  - destruct s; discriminate.
Qed.

Lemma add_to_wf x s :
  wf x = true -> forallb wf s = true -> forallb wf (add_to x s) = true.
Proof.
  intros Hx Hs. unfold add_to. destruct (existsb (defeq x) s); [exact Hs |].
  rewrite forallb_wf_app, Hs. simpl. rewrite Hx. reflexivity.
Qed.

Lemma add_to_weight x s :
  total_weight (add_to x s) <= total_weight s + weight x.
Proof.
  unfold add_to. destruct (existsb (defeq x) s); [lia |].
  unfold total_weight. rewrite map_app, list_sum_app. simpl. lia.
Qed.

Lemma fold_add_to_wf subs : forall s,
  forallb wf subs = true -> forallb wf s = true ->
  forallb wf (fold_left (fun s sub_op => add_to sub_op s) subs s) = true.
Proof.
  induction subs as [| x subs IH]; intros s Hsubs Hs; simpl in *.
  - exact Hs.
  - apply andb_true_iff in Hsubs as [Hx Hsubs].
    apply IH; [exact Hsubs | apply add_to_wf; assumption].
Qed.

Lemma fold_add_to_weight subs : forall s,
  total_weight (fold_left (fun s sub_op => add_to sub_op s) subs s)
  <= total_weight s + total_weight subs.
Proof.
  induction subs as [| x subs IH]; intros s; simpl.
  - unfold total_weight. simpl. lia.
  - rewrite total_weight_cons. specialize (IH (add_to x s)).
    pose proof (add_to_weight x s). lia.
Qed.

Lemma fold_add_to_nonempty subs : forall s,
  subs <> [] \/ s <> [] ->
  fold_left (fun s sub_op => add_to sub_op s) subs s <> [].
Proof.
  induction subs as [| x subs IH]; intros s H; simpl.
  - destruct H as [H | H]; [contradiction | exact H].
  - apply IH. right. apply add_to_nonempty.
Qed.

(** ** Every call of [simp] returns *)

Section collect_returns.
Variable nested : Expression -> option (list Expression).
Hypothesis nested_wf :
  forall r subs, nested r = Some subs -> wf r = true ->
                 subs <> [] /\ forallb wf subs = true
                 /\ total_weight subs <= weight r.
Variable hypotheses : Hypotheses.

Lemma collect_operands_returns : forall ops acc,
  Forall (normalises hypotheses) ops ->
  forallb wf acc = true ->
  exists fuel new_operands,
    collect_operands (fun x => simp fuel x hypotheses) nested ops acc
    = Ok new_operands
    /\ forallb wf new_operands = true
    /\ total_weight new_operands <= total_weight acc + total_weight ops
    /\ (ops <> [] \/ acc <> [] -> new_operands <> []).
Proof.
  induction ops as [| op rest IH]; intros acc Hops Hacc.
  - exists 0, acc. simpl. repeat split; trivial.
    + unfold total_weight. simpl. lia.
    + intros [H | H]; [contradiction | exact H].
  - inversion Hops as [| ? ? (n1 & r1 & Hr1 & Hwf1 & Hw1) Hrest]; subst.
    set (acc' := match nested r1 with
                 | Some sub_ops =>
                     fold_left (fun s sub_op => add_to sub_op s) sub_ops acc
                 | None => add_to r1 acc
                 end).
    assert (Hacc' : forallb wf acc' = true
                    /\ total_weight acc' <= total_weight acc + weight r1
                    /\ acc' <> []).
    { unfold acc'. destruct (nested r1) as [subs |] eqn:En.
      - destruct (nested_wf _ _ En Hwf1) as (Hne & Hsw & Hsl).
        split; [apply fold_add_to_wf; assumption |].
        split; [pose proof (fold_add_to_weight subs acc); lia |].
        apply fold_add_to_nonempty. left. exact Hne.
      - split; [apply add_to_wf; assumption |].
        split; [apply add_to_weight | apply add_to_nonempty]. }
    destruct Hacc' as (Hwf' & Hw' & Hne').
    destruct (IH acc' Hrest Hwf') as (n2 & new & Hnew & Hwfn & Hwn & Hnen).
    exists (Nat.max n1 n2), new. simpl.
    rewrite (simp_fuel_le n1 (Nat.max n1 n2) hypotheses
               (Nat.le_max_l _ _) _ _ Hr1). simpl.
    fold acc'. split.
    + apply (collect_operands_extends
               (fun x => simp n2 x hypotheses) _ nested
               (simp_fuel_le n2 _ hypotheses (Nat.le_max_r _ _))).
      exact Hnew.
    + split; [exact Hwfn |]. split.
      * rewrite total_weight_cons. lia.
      * intros _. apply Hnen. right. exact Hne'.
Qed.
End collect_returns.

Lemma rebuild_returns class_name build new_operands :
  (forall l, l <> [] -> forallb wf l = true -> wf (build l) = true) ->
  (forall l, weight (build l) = S (total_weight l)) ->
  new_operands <> [] -> forallb wf new_operands = true ->
  exists r, rebuild class_name build new_operands = Ok r
            /\ wf r = true /\ weight r <= S (total_weight new_operands).
Proof.
  intros Hwf Hw Hne Hall.
  destruct new_operands as [| a [| b l]]; [contradiction | |].
  - exists a. simpl in *. rewrite andb_true_r in Hall.
    repeat split; trivial. unfold total_weight. simpl. lia.
  - exists (build (a :: b :: l)). simpl. repeat split.
    + apply Hwf; [discriminate | exact Hall].
    + rewrite Hw. lia.
Qed.

Lemma split_power_wf f : wf f = true -> wf (fst (split_power f)) = true.
Proof. destruct f; simpl; trivial. Qed.

Lemma split_power_weight f : weight (fst (split_power f)) = weight f.
Proof. destruct f; reflexivity. Qed.

Lemma gather_term_keys b q : forall terms,
  wf b = true -> forallb wf (map fst terms) = true ->
  forallb wf (map fst (gather_term b q terms)) = true
  /\ total_weight (map fst (gather_term b q terms))
     <= total_weight (map fst terms) + weight b.
Proof.
  induction terms as [| [k e] rest IH]; intros Hb Hks; simpl in *.
  - rewrite Hb. split; [reflexivity |]. unfold total_weight. simpl. lia.
  - apply andb_true_iff in Hks as [Hk Hrest].
    destruct (defeq b k); simpl.
    + rewrite Hk, Hrest. split; [reflexivity |].
      rewrite !total_weight_cons. lia.
    + destruct (IH Hb Hrest) as [IH1 IH2]. rewrite Hk, IH1.
      split; [reflexivity |]. rewrite !total_weight_cons. lia.
Qed.

Lemma gather_keys_from new_factors : forall terms,
  forallb wf new_factors = true -> forallb wf (map fst terms) = true ->
  let terms' :=
    fold_left (fun terms factor =>
                 gather_term (fst (split_power factor))
                             (snd (split_power factor)) terms)
              new_factors terms in
  forallb wf (map fst terms') = true
  /\ total_weight (map fst terms')
     <= total_weight (map fst terms) + total_weight new_factors.
Proof.
  induction new_factors as [| f rest IH]; intros terms Hfs Hks; simpl in *.
  - split; [exact Hks |]. unfold total_weight. simpl. lia.
  - apply andb_true_iff in Hfs as [Hf Hrest].
    destruct (gather_term_keys (fst (split_power f)) (snd (split_power f))
                terms (split_power_wf f Hf) Hks) as [G1 G2].
    destruct (IH _ Hrest G1) as [IH1 IH2].
    split; [exact IH1 |].
    rewrite total_weight_cons. rewrite split_power_weight in G2. lia.
Qed.

Lemma gather_keys new_factors :
  forallb wf new_factors = true ->
  forallb wf (map fst (gather new_factors)) = true
  /\ total_weight (map fst (gather new_factors)) <= total_weight new_factors.
Proof.
  intros H. destruct (gather_keys_from new_factors [] H eq_refl) as [G1 G2].
  split; [exact G1 | exact G2].
Qed.

Section Mul_returns.
Variable hypotheses : Hypotheses.

Lemma flatten_factors_returns : forall fs,
  Forall (normalises hypotheses) fs ->
  exists fuel new_factors,
    flatten_factors (fun x => simp fuel x hypotheses) fs = Ok new_factors
    /\ forallb wf new_factors = true
    /\ total_weight new_factors <= total_weight fs.
Proof.
  induction fs as [| f rest IH]; intros Hfs.
  - exists 0, []. simpl. repeat split. lia.
  - inversion Hfs as [| ? ? (n1 & r1 & Hr1 & Hwf1 & Hw1) Hrest]; subst.
    destruct (IH Hrest) as (n2 & nf & Hnf & Hwfn & Hwn).
    exists (Nat.max n1 n2). simpl.
    rewrite (simp_fuel_le n1 (Nat.max n1 n2) hypotheses
               (Nat.le_max_l _ _) _ _ Hr1). simpl.
    rewrite (flatten_factors_extends
               (fun x => simp n2 x hypotheses) _
               (simp_fuel_le n2 _ hypotheses (Nat.le_max_r _ _)) _ _ Hnf).
    simpl. eexists. split; [reflexivity |].
    rewrite total_weight_cons.
    destruct r1; simpl in *;
      rewrite ?forallb_wf_app, ?total_weight_app, ?total_weight_cons,
              ?Hwf1, ?Hwfn;
      simpl; (split; [reflexivity | ]); try lia.
    fold (total_weight factors) in Hw1. lia.
Qed.

Lemma final_factors_returns : forall terms,
  Forall (fun t => normalises hypotheses (Power (fst t) (snd t))) terms ->
  exists fuel final,
    final_factors (fun x => simp fuel x hypotheses) terms = Ok final
    /\ forallb wf final = true
    /\ total_weight final <= total_weight (map fst terms).
Proof.
  induction terms as [| [b q] rest IH]; intros Hts.
  - exists 0, []. simpl. repeat split. lia.
  - inversion Hts as [| ? ? (n1 & r1 & Hr1 & Hwf1 & Hw1) Hrest]; subst.
    simpl fst in Hr1, Hw1. simpl snd in Hr1, Hw1.
    destruct (IH Hrest) as (n2 & fin & Hfin & Hwff & Hwfin).
    exists (Nat.max n1 n2). simpl.
    rewrite (simp_fuel_le n1 (Nat.max n1 n2) hypotheses
               (Nat.le_max_l _ _) _ _ Hr1). simpl.
    rewrite (final_factors_extends
               (fun x => simp n2 x hypotheses) _
               (simp_fuel_le n2 _ hypotheses (Nat.le_max_r _ _)) _ _ Hfin).
    simpl. eexists. split; [reflexivity |].
    rewrite total_weight_cons. simpl in Hw1.
    destruct (isConstant r1); simpl.
    + split; [exact Hwff | lia].
    + rewrite Hwf1, Hwff. split; [reflexivity |].
      rewrite total_weight_cons. lia.
Qed.

Variable N : nat.
Hypothesis below :
  forall e, wf e = true -> weight e < N -> normalises hypotheses e.

Lemma Forall_normalises_below : forall l,
  forallb wf l = true -> total_weight l < N ->
  Forall (normalises hypotheses) l.
Proof.
  induction l as [| x l IH]; intros Hwf Hw; constructor.
  - apply andb_true_iff in Hwf as [Hx _]. rewrite total_weight_cons in Hw.
    apply below; [exact Hx | lia].
  - apply andb_true_iff in Hwf as [_ Hl]. rewrite total_weight_cons in Hw.
    apply IH; [exact Hl | lia].
Qed.

Lemma Forall_monomials_below : forall terms,
  forallb wf (map fst terms) = true ->
  total_weight (map fst terms) < N ->
  Forall (fun t => normalises hypotheses (Power (fst t) (snd t))) terms.
Proof.
  induction terms as [| [b q] rest IH]; intros Hwf Hw; constructor;
    simpl in *; apply andb_true_iff in Hwf as [Hb Hrest];
    rewrite total_weight_cons in Hw.
  - apply below; simpl; [exact Hb | lia].
  - apply IH; [exact Hrest | lia].
Qed.

Lemma Mul_simp_returns fs :
  forallb wf fs = true -> total_weight fs < N ->
  exists fuel r,
    Mul_simp (fun x => simp fuel x hypotheses) fs = Ok r
    /\ wf r = true /\ weight r <= S (total_weight fs).
Proof.
  intros Hwf Hw.
  destruct (flatten_factors_returns fs (Forall_normalises_below fs Hwf Hw))
    as (n1 & nf & Hnf & Hwfn & Hwn).
  destruct (gather_keys nf Hwfn) as [Hk1 Hk2].
  destruct (final_factors_returns (gather nf)
              (Forall_monomials_below _ Hk1 ltac:(lia)))
    as (n2 & fin & Hfin & Hwff & Hwfin).
  exists (Nat.max n1 n2), (Mul fin). unfold Mul_simp.
  rewrite (flatten_factors_extends
             (fun x => simp n1 x hypotheses) _
             (simp_fuel_le n1 _ hypotheses (Nat.le_max_l _ _)) _ _ Hnf).
  simpl.
  rewrite (final_factors_extends
             (fun x => simp n2 x hypotheses) _
             (simp_fuel_le n2 _ hypotheses (Nat.le_max_r _ _)) _ _ Hfin).
  simpl. split; [reflexivity |]. split; [exact Hwff |].
  fold (total_weight fin). lia.
Qed.
End Mul_returns.

Lemma Max_operands_wf r subs :
  Max_operands r = Some subs -> wf r = true ->
  subs <> [] /\ forallb wf subs = true /\ total_weight subs <= weight r.
Proof.
  destruct r; try discriminate. intros [= ->] H. simpl in *.
  destruct subs; [discriminate |].
  split; [discriminate |]. split; [exact H |]. unfold total_weight. lia.
Qed.

Lemma Min_operands_wf r subs :
  Min_operands r = Some subs -> wf r = true ->
  subs <> [] /\ forallb wf subs = true /\ total_weight subs <= weight r.
Proof.
  destruct r; try discriminate. intros [= ->] H. simpl in *.
  destruct subs; [discriminate |].
  split; [discriminate |]. split; [exact H |]. unfold total_weight. lia.
Qed.

Lemma distribute_wf q fs :
  forallb wf (map (fun factor => Power factor q) fs) = forallb wf fs.
Proof. induction fs as [| f fs IH]; simpl; [| rewrite IH]; reflexivity. Qed.

Lemma distribute_weight q fs :
  total_weight (map (fun factor => Power factor q) fs) = total_weight fs.
Proof.
  induction fs as [| f fs IH]; [reflexivity |].
  simpl map. rewrite !total_weight_cons, IH. reflexivity.
Qed.

Lemma mul_wf a b : wf a = true -> wf b = true -> wf (mul a b) = true.
Proof.
  intros Ha Hb. unfold mul. simpl. rewrite forallb_wf_app.
  assert (forall e, wf e = true ->
            forallb wf (match e with Mul fs => fs | _ => [e] end) = true) as H.
  { intros e He. destruct e; simpl in *; rewrite ?He; trivial. }
  rewrite (H a Ha), (H b Hb). reflexivity.
Qed.

Lemma mul_weight a b : weight (mul a b) <= S (weight a + weight b).
Proof.
  unfold mul. simpl. fold (total_weight
    ((match a with Mul fs => fs | _ => [a] end)
       ++ (match b with Mul fs => fs | _ => [b] end))).
  rewrite total_weight_app.
  assert (forall e, total_weight (match e with Mul fs => fs | _ => [e] end)
                    <= weight e) as H.
  { intros e. destruct e; unfold total_weight; simpl; lia. }
  pose proof (H a). pose proof (H b). lia.
Qed.

Lemma simp_returns_below hypotheses : forall N e,
  wf e = true -> weight e <= N -> normalises hypotheses e.
Proof.
  induction N as [| N IHN]; intros e Hwf Hw.
  { pose proof (weight_pos e). lia. }
  assert (below : forall e', wf e' = true -> weight e' < S N ->
                             normalises hypotheses e').
  { intros e' H1 H2. apply IHN; [exact H1 | lia]. }
  induction e as [name | value | ops | ops | ops | fs | a _ b _ | b IHb q].
  - exists 1, (Var name). simpl. auto.
  - exists 1, (Constant 1). simpl. repeat split. lia.
  - simpl in Hwf, Hw. fold (total_weight ops) in Hw.
    assert (Hne : ops <> []) by (destruct ops; [discriminate | discriminate]).
    assert (Hall : forallb wf ops = true) by (destruct ops; [discriminate | exact Hwf]).
    destruct (collect_operands_returns Max_operands Max_operands_wf
                hypotheses ops []
                (Forall_normalises_below hypotheses (S N) below ops Hall
                   ltac:(lia)) eq_refl)
      as (n & new & Hnew & Hwfn & Hwn & Hnen).
    destruct (rebuild_returns "Max" Max new) as (r & Hr & Hwfr & Hwr).
    + intros l Hl Hwl. simpl. destruct l; [contradiction | exact Hwl].
    + reflexivity.
    + apply Hnen. left. exact Hne.
    + exact Hwfn.
    + exists (S n), r. simpl. rewrite Hnew. simpl.
      split; [exact Hr |]. split; [exact Hwfr |].
      fold (total_weight ops). unfold total_weight at 2 in Hwn.
      simpl in Hwn. lia.
  - simpl in Hwf, Hw. fold (total_weight ops) in Hw.
    assert (Hne : ops <> []) by (destruct ops; [discriminate | discriminate]).
    assert (Hall : forallb wf ops = true) by (destruct ops; [discriminate | exact Hwf]).
    destruct (collect_operands_returns Min_operands Min_operands_wf
                hypotheses ops []
                (Forall_normalises_below hypotheses (S N) below ops Hall
                   ltac:(lia)) eq_refl)
      as (n & new & Hnew & Hwfn & Hwn & Hnen).
    destruct (rebuild_returns "Min" Min new) as (r & Hr & Hwfr & Hwr).
    + intros l Hl Hwl. simpl. destruct l; [contradiction | exact Hwl].
    + reflexivity.
    + apply Hnen. left. exact Hne.
    + exact Hwfn.
    + exists (S n), r. simpl. rewrite Hnew. simpl.
      split; [exact Hr |]. split; [exact Hwfr |].
      fold (total_weight ops). unfold total_weight at 2 in Hwn.
      simpl in Hwn. lia.
  - simpl in Hw.
    destruct (IHN (Max ops)) as (n & r & Hr & Hwfr & Hwr).
    + exact Hwf.
    + simpl. lia.
    + exists (S n), r. simpl. destruct ops; [discriminate |].
      split; [exact Hr |]. split; [exact Hwfr |]. simpl in *. lia.
  - simpl in Hwf, Hw. fold (total_weight fs) in Hw.
    destruct (Mul_simp_returns hypotheses (S N) below fs Hwf ltac:(lia))
      as (n & r & Hr & Hwfr & Hwr).
    exists (S n), r. simpl. fold (total_weight fs). auto.
  - simpl in Hwf, Hw. apply andb_true_iff in Hwf as [Hwa Hwb].
    pose proof (mul_weight a (Power b (-1))) as Hm.
    change (weight (Power b (-1))) with (weight b) in Hm.
    destruct (IHN (mul a (Power b (-1)))) as (n & r & Hr & Hwfr & Hwr).
    + apply mul_wf; [exact Hwa | exact Hwb].
    + lia.
    + exists (S n), r. split; [exact Hr |].
      split; [exact Hwfr |]. simpl weight. lia.
  - simpl in Hwf, Hw.
    destruct (IHb Hwf Hw) as (n1 & b' & Hb' & Hwfb' & Hwb').
    assert (Hone : wf (Constant 1) = true) by reflexivity.
    assert (Hkeep : forall fuel, n1 <= fuel ->
              simp fuel b hypotheses = Ok b').
    { intros fuel Hle. exact (simp_fuel_le n1 fuel hypotheses Hle _ _ Hb'). }
    pose proof (weight_pos b) as Hpos.
    destruct (Fraction_eq q 1) eqn:Eq1.
    { exists (S n1), b'. simpl. unfold Power_simp. rewrite Hb'. simpl.
      rewrite Eq1. auto. }
    destruct (Fraction_eq q 0 || isConstant b') eqn:Eq0.
    { exists (S n1), (Constant 1). simpl. unfold Power_simp.
      rewrite Hb'. simpl. rewrite Eq1, Eq0. auto. }
    apply orb_false_iff in Eq0 as [Eq0 Ec].
    destruct b' as [name | value | ops | ops | ops | fs | c d | c p];
      try discriminate Ec.
    1-4, 6: eexists (S n1), _; simpl; unfold Power_simp; rewrite Hb'; simpl;
      rewrite Eq1, Eq0; simpl; (split; [reflexivity |]); split;
      [exact Hwfb' | exact Hwb'].
    + simpl in Hwfb', Hwb'. fold (total_weight fs) in Hwb'.
      destruct (Mul_simp_returns hypotheses (S N) below
                  (map (fun factor => Power factor q) fs))
        as (n2 & r & Hr & Hwfr & Hwr).
      * rewrite distribute_wf. exact Hwfb'.
      * rewrite distribute_weight. lia.
      * rewrite distribute_weight in Hwr.
        exists (S (Nat.max n1 (S n2))), r. simpl. unfold Power_simp.
        rewrite (Hkeep _ (Nat.le_max_l _ _)). simpl. rewrite Eq1, Eq0.
        simpl.
        split; [| split; [exact Hwfr | lia]].
        apply (simp_fuel_le (S n2) _ hypotheses (Nat.le_max_r _ _)).
        exact Hr.
    + eexists (S n1), _. simpl. unfold Power_simp. rewrite Hb'. simpl.
      rewrite Eq1, Eq0. simpl. split; [reflexivity |]. split;
        [exact Hwfb' | exact Hwb'].
Qed.

(** [simp] is total on the expressions the constructors can build: it
    returns, raises nothing, and its value is well formed again. *)
Lemma simp_returns hypotheses e :
  wf e = true -> normalises hypotheses e.
Proof. intros H. apply (simp_returns_below hypotheses (weight e)); auto. Qed.

(** Two runs with different fuel that both return agree. *)
Lemma simp_deterministic n m hypotheses e r r' :
  simp n e hypotheses = Ok r -> simp m e hypotheses = Ok r' -> r = r'.
Proof.
  intros H H'.
  pose proof (simp_fuel_le n (Nat.max n m) hypotheses
                (Nat.le_max_l _ _) _ _ H) as E.
  pose proof (simp_fuel_le m (Nat.max n m) hypotheses
                (Nat.le_max_r _ _) _ _ H') as E'.
  congruence.
Qed.

(** ** Structural equality is reflexive *)

Lemma set_defeq_refl (l : list Expression) :
  Forall (fun e => defeq e e = true) l -> set_defeq defeq l l = true.
Proof.
  induction 1 as [| x l Hx Hl IH]; simpl; [reflexivity |].
  rewrite Hx, IH. reflexivity.
Qed.

Lemma defeq_refl e : defeq e e = true.
Proof.
  induction e using Expression_nested_ind; simpl;
    try (apply set_defeq_refl; assumption).
  - apply String.eqb_refl.
  - apply Qeq_bool_iff. reflexivity.
  - rewrite IHe1, IHe2. reflexivity.
  - rewrite IHe. unfold Fraction_eq.
    apply andb_true_iff; split; [reflexivity |].
    apply Qeq_bool_iff. reflexivity.
Qed.

(** A product is never [defeq] to an object of another class:
    [Mul.defeq] answers [False] unless [other] is a [Mul]. *)
Lemma Mul_defeq_other fs e :
  (forall gs, e <> Mul gs) -> defeq (Mul fs) e = false.
Proof. intros H. destruct e; try reflexivity. elim (H factors eq_refl). Qed.

(** [Mul.simp] and [Div.simp] return a [Mul] whenever they return. *)
Lemma Mul_simp_is_Mul rec fs r : Mul_simp rec fs = Ok r -> exists gs, r = Mul gs.
Proof.
  unfold Mul_simp. intros H. bind_inv H. bind_inv H.
  injection H as <-. eauto.
Qed.

Lemma Div_simp_is_Mul fuel hypotheses a b r :
  simp fuel (Div a b) hypotheses = Ok r -> exists gs, r = Mul gs.
Proof.
  destruct fuel as [| [| n]]; try discriminate. simpl.
  unfold mul. apply Mul_simp_is_Mul.
Qed.

Lemma Estimate_simp_never_Bool fuel hypotheses self r :
  Estimate_simp fuel self hypotheses = Ok r ->
  exists gs o, r = Est (mkEstimate (Mul gs) o (Constant 1)).
Proof.
  unfold Estimate_simp, Estimate_normalize. intros H. bind_inv H.
  destruct (Div_simp_is_Mul _ _ _ _ _ Ha) as [gs ->]. simpl in H.
  injection H as <-. eauto.
Qed.

(** ** The model on the concrete scenarios of the documentation *)

Example bracket_of_a_constant :
  simp 5 (bracket (Constant 5)) [] = Ok (Constant 1).
Proof. reflexivity. Qed.

Example sum_simplifies_as_max :
  simp 4 (add (Var "a") (Var "b")) [] = simp 4 (Max [Var "a"; Var "b"]) []
  /\ simp 4 (add (Var "a") (Var "b")) [] = Ok (Max [Var "a"; Var "b"]).
Proof. split; reflexivity. Qed.

Example power_distributes_over_a_product :
  simp 6 (Power (Mul [Var "x"; Div (Var "y") (Var "x")]) 2) []
  = Ok (Mul [Power (Var "y") 2]).
Proof. reflexivity. Qed.

Example orientation_of_estimates :
  Estimate_simp 5 (expression_le (Var "a") (Var "b")) []
  = Estimate_simp 5 (expression_ge (Var "b") (Var "a")) [].
Proof. reflexivity. Qed.

Lemma negate_involutive (self : Estimate) :
  operator self <> op_asymp ->
  exists e, negate self = Est e /\ negate e = Est self.
Proof.
  destruct self as [l o r]. unfold negate. simpl. intros H.
  destruct o; try contradiction; eexists; split; reflexivity.
Qed.

(** * The claims *)

(** ** Normalisation *)

(** C1, at the input [Power(Power(x, 2), Fraction(1, 2))]: [simp] returns
    [Power(x, 1)], because the branch that combines the exponents of a
    nested power does not look at their product; a second [simp] returns
    [x], and [x] and [Power(x, 1)] are not [defeq], whichever of the two is
    asked.  So [simp(simp(e))] is not [defeq] to [simp(e)] here. *)
Theorem simp_not_idempotent_on_nested_power :
  forall (name : string) (hypotheses : Hypotheses) (k : nat),
    let e := Power (Power (Var name) 2) (1 # 2) in
    simp (3 + k) e hypotheses = Ok (Power (Var name) 1)
    /\ simp (3 + k) (Power (Var name) 1) hypotheses = Ok (Var name)
    /\ defeq (Var name) (Power (Var name) 1) = false
    /\ defeq (Power (Var name) 1) (Var name) = false.
Proof.
  intros name hypotheses k. cbv zeta. repeat split.
Qed.

(** The ratio of a variable to itself: the exponents [1] and [-1] are
    gathered to [0], the monomial [Power(x, 0)] simplifies to a constant and
    is dropped, and the product of what is left is returned. *)
Lemma Div_self_simp (name : string) (hypotheses : Hypotheses) (k : nat) :
  simp (4 + k) (Div (Var name) (Var name)) hypotheses = Ok (Mul []).
Proof.
  simpl. unfold Mul_simp, Power_simp, gather. simpl.
  rewrite String.eqb_refl. reflexivity.
Qed.

(** C3, at a variable [x]: [simp(x / x)] is the empty product [Mul()],
    which [Mul.simp] returns without collapsing it, and [Mul()] is not
    [defeq] to [Constant(1)] in either direction. *)
Theorem self_division_is_the_empty_product :
  forall (name : string) (hypotheses : Hypotheses) (k : nat),
    simp (4 + k) (Div (Var name) (Var name)) hypotheses = Ok (Mul [])
    /\ defeq (Mul []) (Constant 1) = false
    /\ defeq (Constant 1) (Mul []) = false.
Proof.
  intros name hypotheses k.
  split; [apply Div_self_simp | split; reflexivity].
Qed.

(** C2, at a variable [a]: the ratio [a / a] simplifies to the empty
    product, which is not [defeq] to [Constant(1)], so [simp(a >~ a)] and
    [simp(a >> a)] return estimates against [Constant(1)] and not the
    booleans true and false. *)
Theorem self_comparison_is_not_decided :
  forall (name : string) (hypotheses : Hypotheses) (k : nat),
    Estimate_simp (4 + k) (expression_ge (Var name) (Var name)) hypotheses
    = Ok (Est (mkEstimate (Mul []) op_gtrsim (Constant 1)))
    /\ Estimate_simp (4 + k) (expression_gt (Var name) (Var name)) hypotheses
       = Ok (Est (mkEstimate (Mul []) op_gg (Constant 1))).
Proof.
  intros name hypotheses k.
  pose proof (Div_self_simp name hypotheses k) as E.
  split; unfold Estimate_simp, Estimate_normalize;
    cbn [Estimate_reverse expression_ge expression_gt left right operator];
    rewrite E; reflexivity.
Qed.

(** C4, at a variable [x]: [simp(x * x)] is the product [Mul(Power(x, 2))]
    of one factor, [simp(Power(x, 2))] is [Power(x, 2)], and the two are
    not [defeq], whichever of the two is asked. *)
Theorem square_as_product_and_as_power :
  forall (name : string) (hypotheses : Hypotheses) (k : nat),
    simp (3 + k) (mul (Var name) (Var name)) hypotheses
    = Ok (Mul [Power (Var name) 2])
    /\ simp (3 + k) (Power (Var name) 2) hypotheses = Ok (Power (Var name) 2)
    /\ defeq (Mul [Power (Var name) 2]) (Power (Var name) 2) = false
    /\ defeq (Power (Var name) 2) (Mul [Power (Var name) 2]) = false.
Proof.
  intros name hypotheses k. repeat split.
  simpl. unfold Mul_simp, Power_simp, gather. simpl.
  rewrite String.eqb_refl. reflexivity.
Qed.

(** C5, first law at [x] a variable, [p = 2] and [q = 1/2]:
    [simp(Power(Power(x, p), q))] is [Power(x, 1)], [simp(Power(x, p*q))]
    is [x], and the two are not [defeq], whichever of the two is asked. *)
Theorem nested_power_law_fails_at_product_one :
  forall (name : string) (hypotheses : Hypotheses) (k : nat),
    simp (3 + k) (Power (Power (Var name) 2) (1 # 2)) hypotheses
    = Ok (Power (Var name) 1)
    /\ simp (3 + k) (Power (Var name) (Fraction_mul 2 (1 # 2))) hypotheses
       = Ok (Var name)
    /\ defeq (Power (Var name) 1) (Var name) = false
    /\ defeq (Var name) (Power (Var name) 1) = false.
Proof.
  intros name hypotheses k. repeat split.
Qed.

(** The other two power laws hold: [simp(Power(x, 1))] is [simp(x)], and
    [simp(Power(x, 0))] is [Constant(1)]. *)
Lemma Power_one_law hypotheses x :
  wf x = true ->
  exists fuel r,
    simp fuel (Power x 1) hypotheses = Ok r
    /\ simp fuel x hypotheses = Ok r /\ defeq r r = true.
Proof.
  intros H. destruct (simp_returns hypotheses x H) as (n & r & Hr & _).
  exists (S n), r. simpl. unfold Power_simp. rewrite Hr. simpl.
  split; [reflexivity |]. split; [| apply defeq_refl].
  apply simp_S. exact Hr.
Qed.

Lemma Power_zero_law hypotheses x :
  wf x = true ->
  exists fuel r,
    simp fuel (Power x 0) hypotheses = Ok r /\ defeq r (Constant 1) = true.
Proof.
  intros H. destruct (simp_returns hypotheses x H) as (n & r & Hr & _).
  exists (S n), (Constant 1). simpl. unfold Power_simp. rewrite Hr.
  split; reflexivity.
Qed.

(** ** Estimates *)

(** C6, as stated, fails at [x >> y]: [simp] returns the estimate
    [(x * y^(-1)) >> 1], whose operator [>>] is not one of [<~], [>~]
    and [~]. *)
Lemma Estimate_simp_keeps_the_strict_operator :
  exists r,
    Estimate_simp 4 (expression_gt (Var "x") (Var "y")) [] = Ok r
    /\ ~ canonical spec_operators r.
Proof.
  eexists. split; [vm_compute; reflexivity |].
  simpl. intros [_ H]. discriminate H.
Qed.

(** C6, amended: on an estimate between well-formed expressions,
    [Estimate.simp] returns, and what it returns is either a boolean
    constant or an estimate whose right side is [Constant(1)] and whose
    operator is one of [>~], [>>] and [~] ([<~] and [<<] have been turned
    around); it is the boolean exactly when the simplified ratio of the
    oriented estimate is [defeq] to [Constant(1)], and that boolean is true
    for [>~] and [~] and false for [>>]. *)
Theorem Estimate_simp_canonical_form :
  forall (self : Estimate) (hypotheses : Hypotheses),
    wf (left self) = true -> wf (right self) = true ->
    let o := Estimate_reverse self in
    exists fuel ratio r,
      simp fuel (Div (left o) (right o)) hypotheses = Ok ratio
      /\ Estimate_simp fuel self hypotheses = Ok r
      /\ canonical oriented r
      /\ oriented (operator o) = true
      /\ r = (if defeq ratio (Constant 1)
              then Bool (decided (operator o))
              else Est (mkEstimate ratio (operator o) (Constant 1))).
Proof.
  intros self hypotheses Hl Hr o.
  assert (Hwf : wf (Div (left o) (right o)) = true).
  { unfold o, Estimate_reverse. destruct (operator self); simpl;
      rewrite Hl, Hr; reflexivity. }
  assert (Ho : oriented (operator o) = true).
  { unfold o, Estimate_reverse. destruct (operator self) eqn:E; simpl;
      rewrite ?E; reflexivity. }
  destruct (simp_returns hypotheses _ Hwf) as (n & ratio & Hratio & _).
  exists n, ratio,
    (if defeq ratio (Constant 1)
     then Bool (decided (operator o))
     else Est (mkEstimate ratio (operator o) (Constant 1))).
  split; [exact Hratio |]. split.
  { unfold Estimate_simp, Estimate_normalize. fold o. rewrite Hratio. simpl.
    destruct (defeq ratio (Constant 1)); reflexivity. }
  split; [| split; [exact Ho | reflexivity]].
  destruct (defeq ratio (Constant 1)); simpl; [exact I |].
  split; [reflexivity | exact Ho].
Qed.

Lemma Estimate_simp_canonical_form_witness :
  exists fuel ratio r,
    simp fuel (Div (Var "y") (Var "x")) [] = Ok ratio
    /\ Estimate_simp fuel (expression_lt (Var "x") (Var "y")) [] = Ok r
    /\ canonical oriented r
    /\ oriented op_gg = true
    /\ r = (if defeq ratio (Constant 1)
            then Bool (decided op_gg)
            else Est (mkEstimate ratio op_gg (Constant 1))).
Proof.
  exact (Estimate_simp_canonical_form
           (expression_lt (Var "x") (Var "y")) [] eq_refl eq_refl).
Defined.

(** ** The Littlewood-Paley property *)

(** C7: [LittlewoodPaley], called with exactly two magnitudes [a] and [b],
    returns the relation [asymp(a, b)] itself, whatever [asymp], [Theta]
    and the rendering of the arguments are: the short-circuit is taken
    before any argument is wrapped and before an object of the class is
    built.  It is the only call that returns a relation: every other call
    raises or builds an object of the class. *)
Theorem LittlewoodPaley_short_circuit :
  forall (Expr Order Relation : Type) (sym_asymp : Expr -> Expr -> Relation)
         (Theta : Expr -> Order) (str : Order -> string),
    (forall a b : Expr,
        LittlewoodPaley Expr Order Relation sym_asymp Theta str [a; b]
        = Ok (inl (sym_asymp a b)))
    /\ (forall (args : list Expr) (r : Relation),
          LittlewoodPaley Expr Order Relation sym_asymp Theta str args
          = Ok (inl r) ->
          exists a b, args = [a; b] /\ r = sym_asymp a b).
Proof.
  intros Expr Order Relation sym_asymp Theta str. split.
  - reflexivity.
  - intros args r H. destruct args as [| a [| b [| c l]]]; simpl in H;
      try discriminate H.
    injection H as <-. exists a, b. split; reflexivity.
Qed.

(** C8: for three variables with different names, [LP_property(N1, N2, N3)]
    is a disjunction of exactly three disjuncts, one per pair taken in the
    order [(N1, N2)], [(N1, N3)], [(N2, N3)]; each is a conjunction of
    exactly two statements, in either order: the estimate with left side
    [i], operator [~] and right side [j] for the pair [(i, j)], and the
    estimate with left side [k], operator [<~] and right side [i] for the
    remaining magnitude [k]. *)
Theorem LP_property_three_variables :
  forall n1 n2 n3 : string,
    n1 <> n2 -> n1 <> n3 -> n2 <> n3 ->
    let N1 := Var n1 in
    let N2 := Var n2 in
    let N3 := Var n3 in
    exists c12 c13 c23,
      LP_property [N1; N2; N3] = Ok (Or [And c12; And c13; And c23])
      /\ Permutation c12 [Est (mkEstimate N1 op_asymp N2);
                          Est (mkEstimate N3 op_lesssim N1)]
      /\ Permutation c13 [Est (mkEstimate N1 op_asymp N3);
                          Est (mkEstimate N2 op_lesssim N1)]
      /\ Permutation c23 [Est (mkEstimate N2 op_asymp N3);
                          Est (mkEstimate N1 op_lesssim N2)].
Proof.
  intros n1 n2 n3 H12 H13 H23 N1 N2 N3.
  do 3 eexists. split; [| repeat split; apply Permutation_refl].
  unfold LP_property, LP_conjuncts. simpl.
  rewrite !String.eqb_refl.
  apply String.eqb_neq in H12 as E12, H13 as E13, H23 as E23.
  rewrite E12, E13, E23.
  rewrite (String.eqb_sym n2 n1), (String.eqb_sym n3 n1),
          (String.eqb_sym n3 n2), E12, E13, E23.
  reflexivity.
Qed.

Lemma LP_property_three_variables_witness :
  exists c12 c13 c23,
    LP_property [Var "N1"; Var "N2"; Var "N3"]
    = Ok (Or [And c12; And c13; And c23])
    /\ Permutation c12 [Est (mkEstimate (Var "N1") op_asymp (Var "N2"));
                        Est (mkEstimate (Var "N3") op_lesssim (Var "N1"))]
    /\ Permutation c13 [Est (mkEstimate (Var "N1") op_asymp (Var "N3"));
                        Est (mkEstimate (Var "N2") op_lesssim (Var "N1"))]
    /\ Permutation c23 [Est (mkEstimate (Var "N2") op_asymp (Var "N3"));
                        Est (mkEstimate (Var "N1") op_lesssim (Var "N2"))].
Proof.
  apply (LP_property_three_variables "N1" "N2" "N3"); discriminate.
Defined.

(** C9: both builders fail for want of arguments exactly when they are
    given fewer than two magnitudes: [LP_property] by its assertion,
    [LittlewoodPaley] by its [ValueError]. *)
Theorem Littlewood_Paley_minimum_arity :
  (forall args : list Expression,
      LP_property args = Err LP_too_few <-> List.length args < 2)
  /\ (forall (Expr Order Relation : Type)
             (sym_asymp : Expr -> Expr -> Relation)
             (Theta : Expr -> Order) (str : Order -> string)
             (args : list Expr),
        LittlewoodPaley Expr Order Relation sym_asymp Theta str args
        = Err LittlewoodPaley_too_few
        <-> List.length args < 2).
Proof.
  split.
  - intros args. unfold LP_property.
    destruct (1 <? List.length args) eqn:E.
    + apply Nat.ltb_lt in E. split; [discriminate | lia].
    + apply Nat.ltb_ge in E. split; [lia | reflexivity].
  - intros Expr Order Relation sym_asymp Theta str args.
    destruct args as [| a [| b [| c l]]]; simpl;
      (split; [intros H; try discriminate H; lia
              | intros H; try reflexivity; lia]).
Qed.

Lemma Littlewood_Paley_minimum_arity_witness :
  LP_property [] = Err LP_too_few
  /\ LP_property [Var "N1"] = Err LP_too_few
  /\ LP_property [Var "N1"; Var "N2"] <> Err LP_too_few
  /\ LittlewoodPaley nat nat bool Nat.eqb S (fun _ => "n") [1]
     = Err LittlewoodPaley_too_few.
Proof.
  pose proof Littlewood_Paley_minimum_arity as [HP HS].
  split; [apply (proj2 (HP [])); simpl; lia |].
  split; [apply (proj2 (HP [Var "N1"])); simpl; lia |].
  split.
  - intros H. apply (proj1 (HP [Var "N1"; Var "N2"])) in H. simpl in H. lia.
  - apply (proj2 (HS nat nat bool Nat.eqb S (fun _ => "n") [1])). simpl. lia.
Defined.

(** ** No assertion of [simp] can fail *)

Lemma no_exception_bind {A B : Type} (P : A -> Prop) (Q : B -> Prop)
    (m : result A) (k : A -> result B) :
  no_exception P m -> (forall a, P a -> no_exception Q (k a)) ->
  no_exception Q (bind m k).
Proof. destruct m; simpl; auto. Qed.

Section safe_steps.
Variable rec : Expression -> result Expression.
Hypothesis rec_safe : safe rec.

Lemma collect_operands_safe nested :
  (forall r subs, nested r = Some subs -> wf r = true ->
                  subs <> [] /\ forallb wf subs = true
                  /\ total_weight subs <= weight r) ->
  forall ops acc,
    forallb wf ops = true -> forallb wf acc = true ->
    no_exception
      (fun new => forallb wf new = true
                  /\ (ops <> [] \/ acc <> [] -> new <> []))
      (collect_operands rec nested ops acc).
Proof.
  intros nested_wf.
  induction ops as [| op rest IH]; intros acc Hops Hacc; simpl.
  - split; [exact Hacc |]. intros [H | H]; [contradiction | exact H].
  - apply andb_true_iff in Hops as [Hop Hrest].
    apply (no_exception_bind (fun r => wf r = true)); [apply rec_safe, Hop |].
    intros r Hr.
    set (acc' := match nested r with
                 | Some sub_ops =>
                     fold_left (fun s sub_op => add_to sub_op s) sub_ops acc
                 | None => add_to r acc
                 end).
    assert (Hacc' : forallb wf acc' = true /\ acc' <> []).
    { unfold acc'. destruct (nested r) as [subs |] eqn:En.
      - destruct (nested_wf _ _ En Hr) as (Hne & Hsw & _).
        split; [apply fold_add_to_wf; assumption |].
        apply fold_add_to_nonempty. left. exact Hne.
      - split; [apply add_to_wf; assumption | apply add_to_nonempty]. }
    destruct Hacc' as [Hwf' Hne'].
    specialize (IH acc' Hrest Hwf').
    destruct (collect_operands rec nested rest acc'); simpl in *; trivial.
    destruct IH as [IH1 IH2]. split; [exact IH1 |].
    intros _. apply IH2. right. exact Hne'.
Qed.

Lemma flatten_factors_safe : forall fs,
  forallb wf fs = true ->
  no_exception (fun nf => forallb wf nf = true) (flatten_factors rec fs).
Proof.
  induction fs as [| f rest IH]; intros Hfs; simpl; [reflexivity |].
  apply andb_true_iff in Hfs as [Hf Hrest].
  apply (no_exception_bind (fun r => wf r = true)); [apply rec_safe, Hf |].
  intros r Hr.
  apply (no_exception_bind (fun nf => forallb wf nf = true));
    [apply IH, Hrest |].
  intros nf Hnf. simpl.
  destruct r; simpl in *; rewrite ?forallb_wf_app, ?Hr, ?Hnf; reflexivity.
Qed.

Lemma final_factors_safe : forall terms,
  forallb wf (map fst terms) = true ->
  no_exception (fun fin => forallb wf fin = true) (final_factors rec terms).
Proof.
  induction terms as [| [b q] rest IH]; intros Hts; simpl; [reflexivity |].
  simpl in Hts. apply andb_true_iff in Hts as [Hb Hrest].
  apply (no_exception_bind (fun r => wf r = true));
    [apply rec_safe; exact Hb |].
  intros r Hr.
  apply (no_exception_bind (fun fin => forallb wf fin = true));
    [apply IH, Hrest |].
  intros fin Hfin. simpl.
  destruct (isConstant r); simpl; rewrite ?Hr, ?Hfin; reflexivity.
Qed.

Lemma Mul_simp_safe fs :
  forallb wf fs = true ->
  no_exception (fun r => wf r = true) (Mul_simp rec fs).
Proof.
  intros Hfs. unfold Mul_simp.
  apply (no_exception_bind (fun nf => forallb wf nf = true));
    [apply flatten_factors_safe, Hfs |].
  intros nf Hnf.
  apply (no_exception_bind (fun fin => forallb wf fin = true)).
  - apply final_factors_safe. apply gather_keys, Hnf.
  - intros fin Hfin. exact Hfin.
Qed.

Lemma Power_simp_safe b q :
  wf b = true -> no_exception (fun r => wf r = true) (Power_simp rec b q).
Proof.
  intros Hb. unfold Power_simp.
  apply (no_exception_bind (fun r => wf r = true)); [apply rec_safe, Hb |].
  intros r Hr.
  destruct (Fraction_eq q 1); [exact Hr |].
  destruct (Fraction_eq q 0 || isConstant r); [reflexivity |].
  destruct r; simpl in *; trivial.
  apply rec_safe. simpl. rewrite distribute_wf. exact Hr.
Qed.

Lemma rebuild_safe class_name build new_operands :
  (forall l, l <> [] -> forallb wf l = true -> wf (build l) = true) ->
  new_operands <> [] -> forallb wf new_operands = true ->
  no_exception (fun r => wf r = true)
               (rebuild class_name build new_operands).
Proof.
  intros Hbuild Hne Hwf.
  destruct new_operands as [| a [| b l]]; [contradiction | |]; simpl.
  - simpl in Hwf. rewrite andb_true_r in Hwf. exact Hwf.
  - apply Hbuild; [discriminate | exact Hwf].
Qed.

Lemma simp_class_safe : safe (simp_class rec).
Proof.
  intros e Hwf. destruct e; simpl in *.
  - exact Hwf.
  - reflexivity.
  - destruct operands as [| op ops]; [discriminate |].
    apply (no_exception_bind
             (fun new => forallb wf new = true
                         /\ (op :: ops <> [] \/ @nil Expression <> []
                             -> new <> []))).
    + apply collect_operands_safe;
        [exact Max_operands_wf | exact Hwf | reflexivity].
    + intros new [Hnew Hne]. apply rebuild_safe; trivial.
      * intros l Hl Hwl. simpl. destruct l; [contradiction | exact Hwl].
      * apply Hne. left. discriminate.
  - destruct operands as [| op ops]; [discriminate |].
    apply (no_exception_bind
             (fun new => forallb wf new = true
                         /\ (op :: ops <> [] \/ @nil Expression <> []
                             -> new <> []))).
    + apply collect_operands_safe;
        [exact Min_operands_wf | exact Hwf | reflexivity].
    + intros new [Hnew Hne]. apply rebuild_safe; trivial.
      * intros l Hl Hwl. simpl. destruct l; [contradiction | exact Hwl].
      * apply Hne. left. discriminate.
  - destruct summands as [| s ss]; [discriminate |].
    apply rec_safe. exact Hwf.
  - apply Mul_simp_safe, Hwf.
  - apply andb_true_iff in Hwf as [Ha Hb].
    apply rec_safe, mul_wf; [exact Ha | exact Hb].
  - apply Power_simp_safe, Hwf.
Qed.
End safe_steps.

Lemma simp_safe hypotheses fuel : safe (fun e => simp fuel e hypotheses).
Proof.
  induction fuel as [| n IH]; intros e Hwf; simpl; [exact I |].
  apply (simp_class_safe _ IH e Hwf).
Qed.

(** ** The consistency assertion of [Max.simp] and [Min.simp] *)

(** C10: for a [Max] or a [Min] of at least one operand, all operands well
    formed, the loop of [simp] returns a set [new_operands] that is not
    empty, [simp] returns a value, and with no amount of fuel does it raise
    the assertion error (or any other exception). *)
Theorem Max_Min_assertion_unreachable :
  forall (hypotheses : Hypotheses) (operands : list Expression),
    operands <> [] -> forallb wf operands = true ->
    (exists fuel new_operands r,
        collect_operands (fun x => simp fuel x hypotheses)
                         Max_operands operands [] = Ok new_operands
        /\ new_operands <> []
        /\ simp (S fuel) (Max operands) hypotheses = Ok r)
    /\ (exists fuel new_operands r,
          collect_operands (fun x => simp fuel x hypotheses)
                           Min_operands operands [] = Ok new_operands
          /\ new_operands <> []
          /\ simp (S fuel) (Min operands) hypotheses = Ok r)
    /\ (forall fuel e,
          simp fuel (Max operands) hypotheses <> Err e
          /\ simp fuel (Min operands) hypotheses <> Err e).
Proof.
  intros hypotheses operands Hne Hwf.
  assert (Hall : Forall (normalises hypotheses) operands).
  { clear Hne. induction operands as [| op ops IH]; constructor.
    - simpl in Hwf. apply andb_true_iff in Hwf as [H _].
      apply simp_returns, H.
    - simpl in Hwf. apply andb_true_iff in Hwf as [_ H]. apply IH, H. }
  assert (Hbuild : forall build,
            (forall l, wf (build l)
                       = match l with [] => false | _ :: _ => forallb wf l end) ->
            forall l, l <> [] -> forallb wf l = true -> wf (build l) = true).
  { intros build Hb l Hl Hwl. rewrite Hb.
    destruct l; [contradiction | exact Hwl]. }
  split; [| split].
  - destruct (collect_operands_returns Max_operands Max_operands_wf
                hypotheses operands [] Hall eq_refl)
      as (n & new & Hnew & Hwfn & _ & Hnen).
    assert (Hnew_ne : new <> []) by (apply Hnen; left; exact Hne).
    destruct (rebuild_returns "Max" Max new
                (Hbuild Max (fun l => eq_refl)) (fun l => eq_refl)
                Hnew_ne Hwfn) as (r & Hr & _).
    exists n, new, r. split; [exact Hnew |]. split; [exact Hnew_ne |].
    simpl. rewrite Hnew. exact Hr.
  - destruct (collect_operands_returns Min_operands Min_operands_wf
                hypotheses operands [] Hall eq_refl)
      as (n & new & Hnew & Hwfn & _ & Hnen).
    assert (Hnew_ne : new <> []) by (apply Hnen; left; exact Hne).
    destruct (rebuild_returns "Min" Min new
                (Hbuild Min (fun l => eq_refl)) (fun l => eq_refl)
                Hnew_ne Hwfn) as (r & Hr & _).
    exists n, new, r. split; [exact Hnew |]. split; [exact Hnew_ne |].
    simpl. rewrite Hnew. exact Hr.
  - intros fuel e.
    assert (HM : wf (Max operands) = true /\ wf (Min operands) = true).
    { simpl. destruct operands; [contradiction | auto]. }
    destruct HM as [HMax HMin].
    pose proof (simp_safe hypotheses fuel _ HMax) as SMax.
    pose proof (simp_safe hypotheses fuel _ HMin) as SMin.
    simpl in SMax, SMin. split; intros E.
    + rewrite E in SMax. exact SMax.
    + rewrite E in SMin. exact SMin.
Qed.

Lemma Max_Min_assertion_unreachable_witness :
  let operands := [Var "x"; Max [Add [Var "y"; Constant 2]; Var "x"]] in
  (exists fuel new_operands r,
      collect_operands (fun x => simp fuel x []) Max_operands operands []
      = Ok new_operands
      /\ new_operands <> []
      /\ simp (S fuel) (Max operands) [] = Ok r)
  /\ (exists fuel new_operands r,
        collect_operands (fun x => simp fuel x []) Min_operands operands []
        = Ok new_operands
        /\ new_operands <> []
        /\ simp (S fuel) (Min operands) [] = Ok r)
  /\ (forall fuel e,
        simp fuel (Max operands) [] <> Err e
        /\ simp fuel (Min operands) [] <> Err e).
Proof.
  apply (Max_Min_assertion_unreachable
           [] [Var "x"; Max [Add [Var "y"; Constant 2]; Var "x"]]).
  - discriminate.
  - reflexivity.
Defined.

(** * Further properties of the code *)

(** ** [simp] returns on every expression that can be built *)

(** X1: on an expression built by the constructors, [simp] returns a value
    that again satisfies what the constructors assert, and at no depth of
    the recursion does it raise an exception: neither the assertions of
    [Max.simp] and [Min.simp] nor those of the constructors it calls can
    fail. *)
Theorem simp_returns_and_raises_nothing :
  forall (hypotheses : Hypotheses) (e : Expression),
    wf e = true ->
    (exists r, returns hypotheses e r /\ wf r = true)
    /\ (forall fuel ex, simp fuel e hypotheses <> Err ex).
Proof.
  intros hypotheses e Hwf. split.
  - destruct (simp_returns hypotheses e Hwf) as (n & r & Hr & Hwfr & _).
    exists r. split; [exists n; exact Hr | exact Hwfr].
  - intros fuel ex E. pose proof (simp_safe hypotheses fuel e Hwf) as S.
    simpl in S. rewrite E in S. exact S.
Qed.

Lemma simp_returns_and_raises_nothing_witness :
  let e := Div (Add [Var "a"; Constant 3])
               (Power (Mul [Var "a"; Min [Var "b"; Var "a"]]) (2 # 3)) in
  (exists r, returns [] e r /\ wf r = true)
  /\ (forall fuel ex, simp fuel e [] <> Err ex).
Proof.
  exact (simp_returns_and_raises_nothing []
           (Div (Add [Var "a"; Constant 3])
                (Power (Mul [Var "a"; Min [Var "b"; Var "a"]]) (2 # 3)))
           eq_refl).
Defined.

(** ** The normal form *)

Lemma distinct_snoc l x :
  distinct (l ++ [x])
  = distinct l && forallb (fun s => negb (defeq x s)) l.
Proof.
  induction l as [| a l IH]; simpl; [reflexivity |].
  rewrite forallb_app, IH. simpl.
  destruct (forallb (fun y => negb (defeq y a)) l), (defeq x a),
    (distinct l), (forallb (fun s => negb (defeq x s)) l); reflexivity.
Qed.

Lemma existsb_false_forallb {A : Type} (f : A -> bool) l :
  existsb f l = false -> forallb (fun a => negb (f a)) l = true.
Proof.
  induction l as [| a l IH]; simpl; [reflexivity |].
  intros H. apply orb_false_iff in H as [Ha Hl]. rewrite Ha, (IH Hl).
  reflexivity.
Qed.

Lemma operand_set_iff same s :
  operand_set same s = true
  <-> forallb normal s = true
      /\ forallb (fun o => negb (same o)) s = true
      /\ distinct s = true.
Proof.
  unfold operand_set. rewrite !andb_true_iff. tauto.
Qed.

Lemma add_to_operand_set same x s :
  normal x = true -> same x = false ->
  operand_set same s = true -> operand_set same (add_to x s) = true.
Proof.
  intros Hn Hs H. unfold add_to.
  destruct (existsb (defeq x) s) eqn:E; [exact H |].
  apply operand_set_iff in H as (H1 & H2 & H3). apply operand_set_iff.
  rewrite !forallb_app, distinct_snoc, H1, H2, H3. simpl.
  rewrite Hn, Hs, (existsb_false_forallb _ _ E). auto.
Qed.

Lemma fold_add_to_operand_set same subs : forall s,
  forallb normal subs = true ->
  forallb (fun o => negb (same o)) subs = true ->
  operand_set same s = true ->
  operand_set same (fold_left (fun s sub_op => add_to sub_op s) subs s) = true.
Proof.
  induction subs as [| x subs IH]; intros s Hn Hs H; simpl in *; [exact H |].
  apply andb_true_iff in Hn as [Hx Hn]. apply andb_true_iff in Hs as [Hsx Hs].
  apply IH; trivial. apply add_to_operand_set; trivial.
  apply negb_true_iff, Hsx.
Qed.

Lemma Fraction_mul_nonzero q q' :
  Fraction_eq q 0 = false -> Fraction_eq q' 0 = false ->
  Fraction_eq (Fraction_mul q q') 0 = false.
Proof.
  unfold Fraction_eq, Fraction_mul. intros H H'.
  destruct (Qeq_bool (Qred (q * q')) 0) eqn:E; [| reflexivity].
  apply Qeq_bool_iff in E. rewrite Qred_correct in E.
  apply Qmult_integral in E as [E | E]; apply Qeq_bool_iff in E; congruence.
Qed.

Section normal_steps.
Variable rec : Expression -> result Expression.
Hypothesis rec_normal : forall x r, rec x = Ok r -> normal r = true.

Lemma collect_operands_normal nested same :
  (forall r subs, nested r = Some subs -> normal r = true ->
                  forallb normal subs = true
                  /\ forallb (fun o => negb (same o)) subs = true) ->
  (forall r, nested r = None -> same r = false) ->
  forall ops acc new_operands,
    operand_set same acc = true ->
    collect_operands rec nested ops acc = Ok new_operands ->
    operand_set same new_operands = true.
Proof.
  intros Hsome Hnone.
  induction ops as [| op rest IH]; intros acc new Hacc H; simpl in H.
  - injection H as <-. exact Hacc.
  - bind_inv H. apply rec_normal in Ha. refine (IH _ _ _ H). clear IH H.
    destruct (nested a) as [subs |] eqn:En.
    + destruct (Hsome _ _ En Ha) as [H1 H2].
      apply fold_add_to_operand_set; assumption.
    + apply add_to_operand_set; auto.
Qed.

Lemma rebuild_normal class_name build same new_operands r :
  (forall l, 2 <= List.length l -> operand_set same l = true ->
             normal (build l) = true) ->
  operand_set same new_operands = true ->
  rebuild class_name build new_operands = Ok r -> normal r = true.
Proof.
  intros Hbuild Hset H.
  destruct new_operands as [| a [| b l]]; simpl in H; [discriminate | |];
    injection H as <-.
  - apply operand_set_iff in Hset as (H1 & _). simpl in H1.
    rewrite andb_true_r in H1. exact H1.
  - apply Hbuild; [simpl; lia | exact Hset].
Qed.

Lemma flatten_factors_normal : forall fs new_factors,
  flatten_factors rec fs = Ok new_factors ->
  forallb normal new_factors = true
  /\ forallb (fun f => negb (isConstant f)) new_factors = true.
Proof.
  induction fs as [| f rest IH]; intros nf H; simpl in H.
  - injection H as <-. split; reflexivity.
  - bind_inv H. bind_inv H. injection H as <-.
    apply rec_normal in Ha. destruct (IH _ eq_refl) as [I1 I2].
    destruct a as [n | v | ops | ops | ops | gs | c d | c p];
      try discriminate Ha.
    + simpl. rewrite I1, I2. auto.
    + auto.
    + cbn [forallb isConstant negb]. rewrite Ha, I1, I2. auto.
    + cbn [forallb isConstant negb]. rewrite Ha, I1, I2. auto.
    + simpl in Ha. apply andb_true_iff in Ha as [H1 H2].
      rewrite !forallb_app, H1, H2, I1, I2. auto.
    + cbn [forallb isConstant negb]. rewrite Ha, I1, I2. auto.
Qed.

Lemma final_factors_normal : forall terms final,
  final_factors rec terms = Ok final ->
  forallb normal final = true
  /\ forallb (fun f => negb (isConstant f)) final = true.
Proof.
  induction terms as [| [b q] rest IH]; intros fin H; simpl in H.
  - injection H as <-. split; reflexivity.
  - bind_inv H. bind_inv H. injection H as <-.
    apply rec_normal in Ha. destruct (IH _ eq_refl) as [I1 I2].
    destruct (isConstant a) eqn:Ec; simpl; [auto |].
    rewrite Ha, Ec, I1, I2. auto.
Qed.

Lemma Mul_simp_normal fs r : Mul_simp rec fs = Ok r -> normal r = true.
Proof.
  unfold Mul_simp. intros H. bind_inv H. bind_inv H. injection H as <-.
  destruct (final_factors_normal _ _ Ha0) as [H1 H2]. simpl.
  rewrite H1, H2. reflexivity.
Qed.

Lemma Power_simp_normal b q r : Power_simp rec b q = Ok r -> normal r = true.
Proof.
  unfold Power_simp. intros H. bind_inv H. pose proof (rec_normal _ _ Ha) as Hn.
  destruct (Fraction_eq q 1); [injection H as <-; exact Hn |].
  destruct (Fraction_eq q 0) eqn:E0; simpl in H; [injection H as <-; reflexivity |].
  destruct a; simpl in H; try (injection H as <-); simpl in *;
    try discriminate Hn; rewrite ?Hn, ?E0; trivial.
  - apply (rec_normal _ _ H).
  - apply andb_true_iff in Hn as [Hn Hq]. apply andb_true_iff in Hn as [Hb Ha'].
    rewrite Hb, Ha'. simpl. apply negb_true_iff in Hq.
    rewrite (Fraction_mul_nonzero _ _ Hq E0). reflexivity.
Qed.

Lemma simp_class_normal e r : simp_class rec e = Ok r -> normal r = true.
Proof.
  destruct e; simpl; intros H.
  - injection H as <-. reflexivity.
  - injection H as <-. reflexivity.
  - bind_inv H.
    apply (rebuild_normal "Max" Max isMax a r); [| | exact H].
    + intros l Hl Hset. apply operand_set_iff in Hset as (H1 & H2 & H3).
      cbn [normal]. rewrite H1, H2, H3. apply Nat.leb_le in Hl. rewrite Hl.
      reflexivity.
    + apply (collect_operands_normal Max_operands isMax) with (3 := eq_refl)
                                                              (4 := Ha).
      * intros r0 subs E Hr0. destruct r0; try discriminate E.
        injection E as <-. cbn [normal] in Hr0.
        apply andb_true_iff in Hr0 as [Hr0 _].
        apply andb_true_iff in Hr0 as [Hr0 H2].
        apply andb_true_iff in Hr0 as [_ H1]. auto.
      * intros r0 E. destruct r0; try reflexivity. discriminate E.
  - bind_inv H.
    apply (rebuild_normal "Min" Min isMin a r); [| | exact H].
    + intros l Hl Hset. apply operand_set_iff in Hset as (H1 & H2 & H3).
      cbn [normal]. rewrite H1, H2, H3. apply Nat.leb_le in Hl. rewrite Hl.
      reflexivity.
    + apply (collect_operands_normal Min_operands isMin) with (3 := eq_refl)
                                                              (4 := Ha).
      * intros r0 subs E Hr0. destruct r0; try discriminate E.
        injection E as <-. cbn [normal] in Hr0.
        apply andb_true_iff in Hr0 as [Hr0 _].
        apply andb_true_iff in Hr0 as [Hr0 H2].
        apply andb_true_iff in Hr0 as [_ H1]. auto.
      * intros r0 E. destruct r0; try reflexivity. discriminate E.
  - destruct summands; [discriminate |]. apply (rec_normal _ _ H).
  - apply (Mul_simp_normal _ _ H).
  - apply (rec_normal _ _ H).
  - apply (Power_simp_normal _ _ _ H).
Qed.
End normal_steps.

Lemma simp_normal fuel hypotheses : forall e r,
  simp fuel e hypotheses = Ok r -> normal r = true.
Proof.
  induction fuel as [| n IH]; intros e r H; [discriminate |].
  exact (simp_class_normal _ IH e r H).
Qed.

(** X2: whatever [simp] returns is in normal form at every depth: it holds
    no [Add] and no [Div]; its only constant is [1]; each [Max] (each [Min])
    in it has at least two operands, none of them a [Max] (a [Min]) itself
    and no two of them duplicates in the sense of [add_to]; no product in
    it has a constant factor; and each power in it has a variable, a [Max]
    or a [Min] for its base and an exponent other than zero. *)
Theorem simp_returns_a_normal_form :
  forall (hypotheses : Hypotheses) (e r : Expression),
    returns hypotheses e r -> normal r = true.
Proof.
  intros hypotheses e r [fuel H]. exact (simp_normal fuel hypotheses e r H).
Qed.

Lemma simp_returns_a_normal_form_witness :
  normal (Mul [Power (Var "y") 2;
               Power (Max [Var "x"; Var "y"; Constant 1]) (-2)]) = true.
Proof.
  apply (simp_returns_a_normal_form []
           (Div (Power (Var "y") 2)
                (Power (Max [Var "x"; Add [Var "y"; Var "x"; Constant 3]]) 2))).
  exists 10. reflexivity.
Defined.

(** ** [Max] and [Min] as sets: duplicates, single operands, nesting *)










Lemma collect_operands_app rec nested l : forall rest acc,
  collect_operands rec nested (l ++ rest) acc
  = (acc' <- collect_operands rec nested l acc ;;
     collect_operands rec nested rest acc').
Proof.
  induction l as [| op l IH]; intros rest acc; simpl; [reflexivity |].
  destruct (rec op); simpl; [apply IH | reflexivity | reflexivity].
Qed.




Lemma distinct_app_cons acc x subs :
  distinct (acc ++ x :: subs) = true -> existsb (defeq x) acc = false.
Proof.
  induction acc as [| a acc IH]; simpl; [reflexivity |].
  intros H. apply andb_true_iff in H as [Ha Hd].
  rewrite forallb_app in Ha. apply andb_true_iff in Ha as [_ Ha].
  simpl in Ha. apply andb_true_iff in Ha as [Ha _].
  apply negb_true_iff in Ha. rewrite Ha, (IH Hd). reflexivity.
Qed.

Lemma fold_add_to_distinct subs : forall acc,
  distinct (acc ++ subs) = true ->
  fold_left (fun s sub_op => add_to sub_op s) subs acc = acc ++ subs.
Proof.
  induction subs as [| x subs IH]; intros acc H; simpl.
  - rewrite app_nil_r. reflexivity.
  - unfold add_to at 2. rewrite (distinct_app_cons _ _ _ H).
    rewrite IH; rewrite <- app_assoc; [reflexivity | exact H].
Qed.

Lemma collect_operands_keeps_members rec nested : forall ops acc new_operands,
  collect_operands rec nested ops acc = Ok new_operands ->
  acc <> [] -> new_operands <> [].
Proof.
  induction ops as [| op rest IH]; intros acc new H Hne; simpl in H.
  - injection H as <-. exact Hne.
  - bind_inv H. apply (IH _ _ H).
    destruct (nested a).
    + apply fold_add_to_nonempty. right. exact Hne.
    + apply add_to_nonempty.
Qed.

Lemma Max_operands_build r subs : Max_operands r = Some subs <-> r = Max subs.
Proof.
  split; [destruct r; try discriminate; intros [= ->]; reflexivity |].
  intros ->. reflexivity.
Qed.

Lemma Min_operands_build r subs : Min_operands r = Some subs <-> r = Min subs.
Proof.
  split; [destruct r; try discriminate; intros [= ->]; reflexivity |].
  intros ->. reflexivity.
Qed.

Lemma Max_operands_isMax r : Max_operands r = None <-> isMax r = false.
Proof. destruct r; simpl; split; intros H; try reflexivity; discriminate H. Qed.

Lemma Min_operands_isMin r : Min_operands r = None <-> isMin r = false.
Proof. destruct r; simpl; split; intros H; try reflexivity; discriminate H. Qed.

Lemma normal_Max l :
  normal (Max l) = ((2 <=? List.length l) && operand_set isMax l).
Proof. cbn [normal]. unfold operand_set. rewrite !andb_assoc. reflexivity. Qed.

Lemma normal_Min l :
  normal (Min l) = ((2 <=? List.length l) && operand_set isMin l).
Proof. cbn [normal]. unfold operand_set. rewrite !andb_assoc. reflexivity. Qed.

(** ** Products *)

Lemma flatten_factors_app rec l1 : forall l2,
  flatten_factors rec (l1 ++ l2)
  = (a <- flatten_factors rec l1 ;;
     b <- flatten_factors rec l2 ;;
     Ok (a ++ b)).
Proof.
  induction l1 as [| f l1 IH]; intros l2; simpl.
  - destruct (flatten_factors rec l2); reflexivity.
  - destruct (rec f) as [f' | |]; simpl; trivial.
    rewrite IH.
    destruct (flatten_factors rec l1) as [a | |]; simpl; trivial.
    destruct (flatten_factors rec l2) as [b | |]; simpl; trivial.
    destruct f'; simpl; rewrite <- ?app_assoc; reflexivity.
Qed.

Lemma flatten_factors_constant rec f v l1 l2 :
  rec f = Ok (Constant v) ->
  flatten_factors rec (l1 ++ f :: l2) = flatten_factors rec (l1 ++ l2).
Proof.
  intros H. rewrite !flatten_factors_app. simpl. rewrite H. simpl.
  destruct (flatten_factors rec l1); simpl; trivial.
  destruct (flatten_factors rec l2); reflexivity.
Qed.

Lemma flatten_factors_member rec f l1 l2 nf :
  flatten_factors rec (l1 ++ f :: l2) = Ok nf -> exists r, rec f = Ok r.
Proof.
  rewrite flatten_factors_app. intros H. bind_inv H. simpl in H.
  destruct (rec f) as [r | |]; try discriminate H. eauto.
Qed.

Lemma Mul_without_constant_factor hypotheses f v l1 l2 r :
  returns hypotheses f (Constant v) ->
  (returns hypotheses (Mul (l1 ++ f :: l2)) r
   <-> returns hypotheses (Mul (l1 ++ l2)) r).
Proof.
  intros [nf Hf]. split; intros [n H].
  - destruct n as [| n]; [discriminate H |]. exists (S n).
    simpl in *. unfold Mul_simp in *. bind_inv H.
    destruct (flatten_factors_member _ _ _ _ _ Ha) as [x Hx].
    pose proof (simp_deterministic _ _ _ _ _ _ Hx Hf) as ->.
    rewrite <- (flatten_factors_constant _ f v l1 l2 Hx), Ha. exact H.
  - destruct n as [| n]; [discriminate H |]. exists (S (Nat.max n nf)).
    apply (simp_fuel_le (S n) (S (Nat.max n nf)) hypotheses) in H;
      [| lia].
    simpl in *. unfold Mul_simp in *.
    rewrite (flatten_factors_constant _ f v l1 l2); [exact H |].
    apply (simp_fuel_le nf _ hypotheses (Nat.le_max_r _ _)), Hf.
Qed.

(** X6: a factor that simplifies to a constant is invisible in a product,
    wherever it stands: [simp] returns the same with and without it.  (A
    constant is such a factor, and so are a power of a constant and a power
    with exponent zero.) *)
Theorem constant_factor_is_invisible :
  forall (hypotheses : Hypotheses) (f : Expression) (v : Q)
         (l1 l2 : list Expression) (r : Expression),
    returns hypotheses f (Constant v) ->
    (returns hypotheses (Mul (l1 ++ f :: l2)) r
     <-> returns hypotheses (Mul (l1 ++ l2)) r).
Proof.
  intros hypotheses f v l1 l2 r.
  apply Mul_without_constant_factor.
Qed.

Lemma constant_factor_is_invisible_witness :
  let f := Power (Add [Constant 2; Constant 5]) (1 # 3) in
  let r := Mul [Var "x"; Var "y"] in
  returns [] (Mul ([Var "x"] ++ f :: [Var "y"])) r
  <-> returns [] (Mul ([Var "x"] ++ [Var "y"])) r.
Proof.
  apply (constant_factor_is_invisible []
           (Power (Add [Constant 2; Constant 5]) (1 # 3)) 1
           [Var "x"] [Var "y"]).
  exists 5. reflexivity.
Defined.

(** X7: whatever a product or a quotient simplifies to is a product: on a
    [Mul] and on a [Div], [simp] returns an object of the class [Mul],
    also for no factor or one factor left.  In particular it never returns
    a [Constant], so the result is never [defeq] to [Constant(1)]. *)
Theorem product_and_quotient_simplify_to_a_product :
  forall (hypotheses : Hypotheses) (e r : Expression),
    returns hypotheses e r ->
    (exists fs, e = Mul fs) \/ (exists a b, e = Div a b) ->
    (exists gs, r = Mul gs) /\ defeq r (Constant 1) = false.
Proof.
  intros hypotheses e r [n H] [[fs ->] | [a [b ->]]].
  - destruct n as [| n]; [discriminate H |]. simpl in H.
    destruct (Mul_simp_is_Mul _ _ _ H) as [gs ->]. eauto.
  - destruct (Div_simp_is_Mul _ _ _ _ _ H) as [gs ->]. eauto.
Qed.

Lemma product_and_quotient_simplify_to_a_product_witness :
  (exists gs, Mul [Var "x"] = Mul gs)
  /\ defeq (Mul [Var "x"]) (Constant 1) = false.
Proof.
  apply (product_and_quotient_simplify_to_a_product []
           (Div (Power (Var "x") 2) (Var "x")) (Mul [Var "x"])).
  - exists 6. reflexivity.
  - right. eauto.
Defined.

(** X8: [Estimate.simp] never returns a boolean.  Whenever it returns, the
    result is an estimate whose left side is a product in normal form,
    whose right side is [Constant(1)] and whose operator is that of the
    oriented estimate, one of [>~], [>>] and [~]. *)
Theorem Estimate_simp_returns_an_estimate :
  forall (fuel : nat) (self : Estimate) (hypotheses : Hypotheses)
         (s : Statement),
    Estimate_simp fuel self hypotheses = Ok s ->
    exists ratio_factors,
      s = Est (mkEstimate (Mul ratio_factors)
                          (operator (Estimate_reverse self)) (Constant 1))
      /\ normal (Mul ratio_factors) = true
      /\ oriented (operator (Estimate_reverse self)) = true.
Proof.
  intros fuel self hypotheses s H.
  unfold Estimate_simp, Estimate_normalize in H. bind_inv H.
  destruct (Div_simp_is_Mul _ _ _ _ _ Ha) as [gs ->].
  pose proof (simp_normal _ _ _ _ Ha) as Hn.
  simpl defeq in H. injection H as <-. exists gs.
  split; [reflexivity |]. split; [exact Hn |].
  unfold Estimate_reverse. destruct (operator self) eqn:E; simpl;
    rewrite ?E; reflexivity.
Qed.

Lemma Estimate_simp_returns_an_estimate_witness :
  exists ratio_factors,
    Est (mkEstimate (Mul [Var "b"; Power (Var "a") (-1)]) op_gg (Constant 1))
    = Est (mkEstimate (Mul ratio_factors) op_gg (Constant 1))
    /\ normal (Mul ratio_factors) = true
    /\ oriented op_gg = true.
Proof.
  exact (Estimate_simp_returns_an_estimate 5
           (expression_lt (Var "a") (Var "b")) [] _ eq_refl).
Defined.

(** ** Building expressions and estimates *)

(** X9: [negate] is an involution on the four one-sided operators: for an
    estimate whose operator is not [~], [negate] returns an estimate
    between the same two expressions, and negating that gives the estimate
    back. *)
Theorem negate_twice :
  forall self : Estimate,
    operator self <> op_asymp ->
    exists e,
      negate self = Est e
      /\ left e = left self /\ right e = right self
      /\ operator e <> op_asymp
      /\ negate e = Est self.
Proof.
  intros [l o r] H. unfold negate. simpl in *.
  destruct o; try contradiction; eexists; repeat split; discriminate.
Qed.

Lemma negate_twice_witness :
  exists e,
    negate (expression_lt (Var "a") (Var "b")) = Est e
    /\ left e = Var "a" /\ right e = Var "b"
    /\ operator e <> op_asymp
    /\ negate e = Est (expression_lt (Var "a") (Var "b")).
Proof.
  apply (negate_twice (expression_lt (Var "a") (Var "b"))). discriminate.
Defined.

(** X10: the flattening of [Expression.mul] and [Expression.add] makes both
    associative on the nose: [(a * b) * c] and [a * (b * c)] are the same
    product, [(a + b) + c] and [a + (b + c)] the same sum. *)
Theorem mul_and_add_are_associative :
  forall a b c : Expression,
    mul (mul a b) c = mul a (mul b c)
    /\ add (add a b) c = add a (add b c).
Proof.
  intros a b c. unfold mul, add. rewrite !app_assoc. split; reflexivity.
Qed.

(** ** The Littlewood-Paley property, for any number of magnitudes *)

Lemma LP_conjuncts_filter args expr1 expr2 :
  LP_conjuncts args expr1 expr2
  = Est (asymp expr1 expr2)
    :: map (fun k => Est (expression_le k expr1))
         (filter (fun k => negb (defeq k expr1) && negb (defeq k expr2))
                 args).
Proof.
  unfold LP_conjuncts.
  change (Est (asymp expr1 expr2)
          :: map (fun k => Est (expression_le k expr1))
               (filter (fun k => negb (defeq k expr1) && negb (defeq k expr2))
                       args))
    with ([Est (asymp expr1 expr2)]
          ++ map (fun k => Est (expression_le k expr1))
               (filter (fun k => negb (defeq k expr1) && negb (defeq k expr2))
                       args)).
  generalize [Est (asymp expr1 expr2)] as init.
  induction args as [| k args IH]; intros init; simpl.
  - rewrite app_nil_r. reflexivity.
  - destruct (negb (defeq k expr1) && negb (defeq k expr2)); simpl.
    + rewrite IH, <- app_assoc. reflexivity.
    + apply IH.
Qed.

Lemma combinations2_length {A : Type} (l : list A) :
  2 * List.length (combinations2 l) = List.length l * (List.length l - 1).
Proof.
  induction l as [| a l IH]; simpl; [reflexivity |].
  rewrite length_app, length_map. nia.
Qed.

Lemma combinations2_split {A : Type} (l : list A) e1 e2 :
  In (e1, e2) (combinations2 l) ->
  exists p q s, l = p ++ e1 :: q ++ e2 :: s.
Proof.
  induction l as [| a l IH]; simpl; [contradiction |].
  intros H. apply in_app_or in H as [H | H].
  - apply in_map_iff in H as (x & [= <- <-] & Hx).
    apply in_split in Hx as (q & s & ->). exists [], q, s. reflexivity.
  - destruct (IH H) as (p & q & s & ->). exists (a :: p), q, s. reflexivity.
Qed.

Lemma filter_drops_two {A : Type} (f : A -> bool) p e1 q e2 s :
  f e1 = false -> f e2 = false ->
  List.length (filter f (p ++ e1 :: q ++ e2 :: s)) + 2
  <= List.length (p ++ e1 :: q ++ e2 :: s).
Proof.
  intros H1 H2. rewrite filter_app. simpl. rewrite H1, filter_app. simpl.
  rewrite H2. rewrite !length_app. simpl. rewrite !length_app. simpl.
  pose proof (filter_length_le f p). pose proof (filter_length_le f q).
  pose proof (filter_length_le f s). lia.
Qed.

(** ** Powers *)

Lemma bind_Ok_right {A : Type} (m : result A) : (a <- m ;; Ok a) = m.
Proof. destruct m; reflexivity. Qed.

Lemma isOne_eq v : isOne v = true -> v = 1%Q.
Proof.
  destruct v as [n d]. unfold isOne. cbn [Qnum Qden]. intros H.
  apply andb_true_iff in H as [Hn Hd].
  apply Z.eqb_eq in Hn. apply Pos.eqb_eq in Hd. subst. reflexivity.
Qed.

(** X12: the exponent one is dropped: [Power(x, 1)] simplifies to exactly
    what [x] simplifies to. *)
Theorem simp_of_exponent_one :
  forall (hypotheses : Hypotheses) (x r : Expression),
    returns hypotheses (Power x 1) r <-> returns hypotheses x r.
Proof.
  intros hypotheses x r.
  assert (E : forall n, simp (S n) (Power x 1) hypotheses
                        = simp n x hypotheses).
  { intros n. simpl. unfold Power_simp. apply bind_Ok_right. }
  split; intros [n H].
  - destruct n as [| n]; [discriminate H |]. exists n. rewrite <- E. exact H.
  - exists (S n). rewrite E. exact H.
Qed.

(** X13: a power collapses to [Constant(1)] when its exponent is zero or
    when its base simplifies to a constant, whatever the exponent. *)
Theorem power_collapses_to_one :
  forall (hypotheses : Hypotheses) (x b : Expression) (q : Fraction),
    returns hypotheses x b ->
    Fraction_eq q 0 = true \/ isConstant b = true ->
    returns hypotheses (Power x q) (Constant 1).
Proof.
  intros hypotheses x b q [n H] Hq. exists (S n). simpl. unfold Power_simp.
  rewrite H. simpl.
  destruct (Fraction_eq q 1) eqn:E1.
  - destruct Hq as [E0 | Hc].
    + unfold Fraction_eq in *. apply Qeq_bool_iff in E0, E1.
      rewrite E0 in E1. discriminate E1.
    + destruct b; try discriminate Hc.
      pose proof (simp_normal _ _ _ _ H) as Hn. simpl in Hn.
      rewrite (isOne_eq _ Hn). reflexivity.
  - destruct Hq as [-> | ->]; [reflexivity | rewrite orb_true_r; reflexivity].
Qed.

Lemma power_collapses_to_one_witness :
  returns [] (Power (Add [Constant 2; Power (Var "x") 0]) (5 # 7))
             (Constant 1).
Proof.
  apply (power_collapses_to_one []
           (Add [Constant 2; Power (Var "x") 0]) (Constant 1) (5 # 7)%Q).
  - exists 5. reflexivity.
  - right. reflexivity.
Defined.

(** ** Gathering the exponents of one variable *)

Lemma simp_power_of_variable name q hypotheses k :
  simp (2 + k) (Power (Var name) q) hypotheses = Ok (monomial name q).
Proof.
  simpl. unfold Power_simp, monomial. simpl.
  destruct (Fraction_eq q 1); [reflexivity |].
  destruct (Fraction_eq q 0); reflexivity.
Qed.

Lemma Fraction_eq_compat p q c :
  (p == q)%Q -> Fraction_eq p c = Fraction_eq q c.
Proof.
  intros H. unfold Fraction_eq.
  destruct (Qeq_bool p c) eqn:Ep, (Qeq_bool q c) eqn:Eq; trivial.
  - apply Qeq_bool_iff in Ep. rewrite H in Ep. apply Qeq_bool_iff in Ep.
    congruence.
  - apply Qeq_bool_iff in Eq. rewrite <- H in Eq. apply Qeq_bool_iff in Eq.
    congruence.
Qed.

Lemma monomial_defeq name p q :
  (p == q)%Q ->
  defeq (Mul (surviving_factors (monomial name p)))
        (Mul (surviving_factors (monomial name q))) = true.
Proof.
  intros H. unfold monomial.
  rewrite (Fraction_eq_compat p q 1%Q H), (Fraction_eq_compat p q 0%Q H).
  destruct (Fraction_eq q 1); [apply defeq_refl |].
  destruct (Fraction_eq q 0); [reflexivity |].
  simpl. rewrite String.eqb_refl. unfold Fraction_eq.
  apply Qeq_bool_iff in H. rewrite H. reflexivity.
Qed.

Lemma Fraction_sum_from qs : forall a,
  (fold_left Fraction_add qs a == a + exponent_total qs)%Q.
Proof.
  induction qs as [| q qs IH]; intros a; simpl.
  - rewrite Qplus_0_r. reflexivity.
  - rewrite IH. unfold Fraction_add. rewrite Qred_correct.
    rewrite Qplus_assoc. reflexivity.
Qed.

Section one_variable.
Variable name : string.
Variable hypotheses : Hypotheses.
Variable k : nat.

Lemma monomial_cases q :
  (Fraction_eq q 1 = true
   /\ surviving_factors (monomial name q) = [Var name])
  \/ (Fraction_eq q 0 = true
      /\ surviving_factors (monomial name q) = [])
  \/ surviving_factors (monomial name q) = [Power (Var name) q].
Proof.
  unfold monomial. destruct (Fraction_eq q 1); [left; auto |].
  destruct (Fraction_eq q 0); [right; left; auto | right; right; auto].
Qed.

Lemma gather_step_variable E :
  gather_step [(Var name, E)] (Var name) = [(Var name, Fraction_add E 1)].
Proof. unfold gather_step. simpl. rewrite String.eqb_refl. reflexivity. Qed.

Lemma gather_step_power E q :
  gather_step [(Var name, E)] (Power (Var name) q)
  = [(Var name, Fraction_add E q)].
Proof. unfold gather_step. simpl. rewrite String.eqb_refl. reflexivity. Qed.

Lemma flatten_powers : forall qs,
  flatten_factors (fun x => simp (2 + k) x hypotheses)
                  (map (Power (Var name)) qs)
  = Ok (flat_map (fun q => surviving_factors (monomial name q)) qs).
Proof.
  induction qs as [| q qs IH]; [reflexivity |].
  cbn [map flatten_factors flat_map].
  rewrite simp_power_of_variable. cbn [bind]. rewrite IH. cbn [bind].
  unfold monomial. destruct (Fraction_eq q 1); [reflexivity |].
  destruct (Fraction_eq q 0); reflexivity.
Qed.

Lemma gather_powers_from : forall qs E,
  exists E',
    fold_left gather_step
      (flat_map (fun q => surviving_factors (monomial name q)) qs)
      [(Var name, E)] = [(Var name, E')]
    /\ (E' == E + exponent_total qs)%Q.
Proof.
  induction qs as [| q qs IH]; intros E.
  - exists E. simpl. split; [reflexivity |]. rewrite Qplus_0_r. reflexivity.
  - cbn [flat_map exponent_total fold_right]. rewrite fold_left_app.
    destruct (monomial_cases q) as [[E1 ->] | [[E0 ->] | ->]];
      cbn [fold_left].
    + rewrite gather_step_variable.
      destruct (IH (Fraction_add E 1)) as (E' & HE' & Hsum).
      exists E'. split; [exact HE' |]. rewrite Hsum.
      unfold Fraction_add. rewrite Qred_correct.
      apply Qeq_bool_iff in E1. rewrite E1, Qplus_assoc. reflexivity.
    + destruct (IH E) as (E' & HE' & Hsum).
      exists E'. split; [exact HE' |]. rewrite Hsum.
      apply Qeq_bool_iff in E0. rewrite E0, Qplus_0_l. reflexivity.
    + rewrite gather_step_power.
      destruct (IH (Fraction_add E q)) as (E' & HE' & Hsum).
      exists E'. split; [exact HE' |]. rewrite Hsum.
      unfold Fraction_add. rewrite Qred_correct, Qplus_assoc. reflexivity.
Qed.

Lemma gather_powers : forall qs,
  (gather (flat_map (fun q => surviving_factors (monomial name q)) qs) = []
   /\ (exponent_total qs == 0)%Q)
  \/ (exists E,
        gather (flat_map (fun q => surviving_factors (monomial name q)) qs)
        = [(Var name, E)]
        /\ (E == exponent_total qs)%Q).
Proof.
  intros qs.
  change (gather (flat_map (fun q => surviving_factors (monomial name q)) qs))
    with (fold_left gather_step
            (flat_map (fun q => surviving_factors (monomial name q)) qs) []).
  induction qs as [| q qs IH].
  - left. split; reflexivity.
  - cbn [flat_map exponent_total fold_right]. rewrite fold_left_app.
    destruct (monomial_cases q) as [[E1 ->] | [[E0 ->] | ->]];
      cbn [fold_left].
    + right. change (gather_step [] (Var name)) with [(Var name, 1%Q)].
      destruct (gather_powers_from qs 1%Q) as (E' & HE' & Hsum).
      exists E'. split; [exact HE' |]. rewrite Hsum.
      apply Qeq_bool_iff in E1. rewrite E1. reflexivity.
    + apply Qeq_bool_iff in E0.
      destruct IH as [[IH1 IH2] | (E & IH1 & IH2)].
      * left. split; [exact IH1 |]. rewrite E0, IH2. reflexivity.
      * right. exists E. split; [exact IH1 |].
        rewrite E0, IH2, Qplus_0_l. reflexivity.
    + right. change (gather_step [] (Power (Var name) q))
               with [(Var name, q)].
      destruct (gather_powers_from qs q) as (E' & HE' & Hsum).
      exists E'. split; [exact HE' |]. exact Hsum.
Qed.

Lemma simp_product_of_powers qs :
  exists E,
    (E == exponent_total qs)%Q
    /\ simp (3 + k) (Mul (map (Power (Var name)) qs)) hypotheses
       = Ok (Mul (surviving_factors (monomial name E))).
Proof.
  change (simp (3 + k) (Mul (map (Power (Var name)) qs)) hypotheses)
    with (Mul_simp (fun x => simp (2 + k) x hypotheses)
                   (map (Power (Var name)) qs)).
  unfold Mul_simp. rewrite flatten_powers. cbn [bind].
  destruct (gather_powers qs) as [[-> Hsum] | (E & -> & Hsum)].
  - exists 0%Q. split; [symmetry; exact Hsum | reflexivity].
  - exists E. split; [exact Hsum |]. cbn [final_factors].
    rewrite simp_power_of_variable. cbn [bind]. unfold monomial.
    destruct (Fraction_eq E 1); [reflexivity |].
    destruct (Fraction_eq E 0); reflexivity.
Qed.
End one_variable.

(** X14: exponents of one variable are gathered.  A product of powers of a
    variable [x] simplifies to the same normal form, up to [defeq], as the
    product of the single power of [x] whose exponent is the sum: for two
    factors, [x^p * x^q] against [x^(p+q)]. *)
Theorem product_of_powers_gathers_exponents :
  forall (name : string) (qs : list Fraction) (hypotheses : Hypotheses)
         (k : nat),
    exists r r',
      simp (3 + k) (Mul (map (Power (Var name)) qs)) hypotheses = Ok r
      /\ simp (3 + k) (Mul [Power (Var name) (Fraction_sum qs)]) hypotheses
         = Ok r'
      /\ defeq r r' = true /\ defeq r' r = true.
Proof.
  intros name qs hypotheses k.
  destruct (simp_product_of_powers name hypotheses k qs) as (E & HE & Hr).
  destruct (simp_product_of_powers name hypotheses k [Fraction_sum qs])
    as (E' & HE' & Hr').
  assert (H : (E == E')%Q).
  { rewrite HE, HE'. unfold Fraction_sum. simpl.
    rewrite Fraction_sum_from, Qplus_0_l, Qplus_0_r. reflexivity. }
  eexists. eexists. split; [exact Hr |]. split; [exact Hr' |].
  split; apply monomial_defeq; [exact H | symmetry; exact H].
Qed.

(** ** Quotients, the Japanese bracket, and the size of the result *)

Lemma Power_of_constant hypotheses d v q :
  returns hypotheses d (Constant v) ->
  returns hypotheses (Power d q) (Constant 1).
Proof.
  intros [n H]. exists (S n). simpl. unfold Power_simp. rewrite H. simpl.
  pose proof (simp_normal _ _ _ _ H) as Hn. simpl in Hn.
  rewrite (isOne_eq _ Hn), orb_true_r.
  destruct (Fraction_eq q 1); reflexivity.
Qed.

(** X15: dividing by something that simplifies to a constant has no
    effect: [a / d] simplifies to exactly what the product of the factors
    of [a] simplifies to ([a] itself taken as the only factor when it is
    not a product). *)
Theorem constant_denominator_is_invisible :
  forall (hypotheses : Hypotheses) (a d : Expression) (v : Q)
         (r : Expression),
    returns hypotheses d (Constant v) ->
    (returns hypotheses (Div a d) r
     <-> returns hypotheses
           (Mul (match a with Mul fs => fs | _ => [a] end)) r).
Proof.
  intros hypotheses a d v r Hd.
  pose proof (Mul_without_constant_factor hypotheses (Power d (-1)) 1
                (match a with Mul fs => fs | _ => [a] end) [] r
                (Power_of_constant hypotheses d v (-1)%Q Hd)) as M.
  rewrite app_nil_r in M. rewrite <- M.
  split; intros [n H].
  - destruct n as [| n]; [discriminate H |]. exists n. exact H.
  - exists (S n). exact H.
Qed.

Lemma constant_denominator_is_invisible_witness :
  let r := Mul [Var "x"; Var "y"] in
  returns [] (Div (Mul [Var "x"; Var "y"]) (Add [Constant 2; Constant 3])) r
  <-> returns [] (Mul [Var "x"; Var "y"]) r.
Proof.
  apply (constant_denominator_is_invisible []
           (Mul [Var "x"; Var "y"]) (Add [Constant 2; Constant 3]) 1).
  exists 4. reflexivity.
Defined.

Lemma Power_simp_classes rec b q r :
  (forall fs r', rec (Mul fs) = Ok r' -> exists gs, r' = Mul gs) ->
  Fraction_eq q 1 = false ->
  Power_simp rec b q = Ok r ->
  (exists v, r = Constant v) \/ (exists c p, r = Power c p)
  \/ (exists gs, r = Mul gs).
Proof.
  intros Hrec E1 H. unfold Power_simp in H. bind_inv H. rewrite E1 in H.
  destruct (Fraction_eq q 0 || isConstant a);
    [injection H as <-; left; eauto |].
  destruct a; try (injection H as <-; right; left; eauto).
  right. right. apply (Hrec _ _ H).
Qed.

(** X17: [simp] does not grow an expression.  Count the nodes of an
    expression, leaving out the [Power] nodes and counting each [Add] and
    each [Div] twice: on an expression built by the constructors, what
    [simp] returns never counts more than what it was given. *)
Theorem simp_does_not_grow :
  forall (hypotheses : Hypotheses) (e r : Expression),
    wf e = true -> returns hypotheses e r -> weight r <= weight e.
Proof.
  intros hypotheses e r Hwf [n H].
  destruct (simp_returns hypotheses e Hwf) as (n' & r' & H' & _ & Hw).
  rewrite (simp_deterministic _ _ _ _ _ _ H H'). exact Hw.
Qed.

Lemma simp_does_not_grow_witness :
  weight (Mul [Power (Var "x") 4; Power (Var "y") 2;
               Power (Max [Var "x"; Constant 1]) (-2)])
  <= weight (Power (Div (Mul [Var "x"; Var "y"; Var "x"])
                        (Add [Var "x"; Constant 4])) 2).
Proof.
  apply (simp_does_not_grow []
           (Power (Div (Mul [Var "x"; Var "y"; Var "x"])
                       (Add [Var "x"; Constant 4])) 2)
           (Mul [Power (Var "x") 4; Power (Var "y") 2;
                 Power (Max [Var "x"; Constant 1]) (-2)])).
  - reflexivity.
  - exists 8. reflexivity.
Defined.

(** ** The Littlewood-Paley property of different variables *)

Lemma combinations2_map {A B : Type} (f : A -> B) (l : list A) :
  combinations2 (map f l)
  = map (fun pr => (f (fst pr), f (snd pr))) (combinations2 l).
Proof.
  induction l as [| a l IH]; simpl; [reflexivity |].
  rewrite map_app, !map_map, IH. reflexivity.
Qed.

Lemma filter_other_variables i j l :
  ~ In i l -> ~ In j l ->
  filter (fun k => negb (defeq k (Var i)) && negb (defeq k (Var j)))
         (map Var l)
  = map Var l.
Proof.
  induction l as [| k l IH]; intros Hi Hj; simpl; [reflexivity |].
  simpl in Hi, Hj.
  assert (Ei : String.eqb k i = false)
    by (apply String.eqb_neq; intros ->; apply Hi; left; reflexivity).
  assert (Ej : String.eqb k j = false)
    by (apply String.eqb_neq; intros ->; apply Hj; left; reflexivity).
  rewrite Ei, Ej. simpl. rewrite IH; [reflexivity | tauto | tauto].
Qed.

Lemma NoDup_split_two (p q s : list string) i j :
  NoDup (p ++ i :: q ++ j :: s) ->
  ~ In i (p ++ q ++ s) /\ ~ In j (p ++ q ++ s).
Proof.
  intros H.
  pose proof (NoDup_remove_2 _ _ _ H) as Hi.
  pose proof (NoDup_remove_1 _ _ _ H) as H'.
  rewrite app_assoc in H'. pose proof (NoDup_remove_2 _ _ _ H') as Hj.
  rewrite <- app_assoc in Hj. split; [| exact Hj].
  intros Hin. apply Hi. rewrite !in_app_iff in *. simpl. tauto.
Qed.

(** The conjuncts built for the pair [(i, j)] of different variables, as
    the loop inserts them. *)
Lemma LP_conjuncts_of_different_variables p i q j t :
  NoDup (p ++ i :: q ++ j :: t) ->
  LP_conjuncts (map Var (p ++ i :: q ++ j :: t)) (Var i) (Var j)
  = Est (mkEstimate (Var i) op_asymp (Var j))
    :: map (fun k => Est (mkEstimate (Var k) op_lesssim (Var i)))
         (p ++ q ++ t).
Proof.
  intros Hnd. rewrite LP_conjuncts_filter. f_equal.
  destruct (NoDup_split_two _ _ _ _ _ Hnd) as [Hi Hj].
  rewrite !map_app, !filter_app. cbn [map filter].
  rewrite !map_app, !filter_app. cbn [map filter].
  cbn [defeq Variable_defeq]. rewrite !String.eqb_refl. cbn [negb andb].
  rewrite andb_false_r.
  rewrite !in_app_iff in Hi, Hj.
  rewrite !filter_other_variables by tauto.
  rewrite !map_app, !map_map. reflexivity.
Qed.

(** * Properties that do not depend on the order of a set

    [Max.simp] and [Min.simp] rebuild their result from a Python set, and
    [LP_property] hands a Python set to [And]; the order in which the
    members come out is not fixed by the code.  The properties of this part
    hold in every such order: those of [simp] are proved of [simp_in] for
    every [order] that permutes, with results compared by [defeq] in both
    directions, and the conjuncts of a case are given as a set or as a
    permutation. *)

Lemma defeq_both_refl r : defeq_both r r.
Proof. split; apply defeq_refl. Qed.

(** ** [set_defeq] finds a matching

    [set_defeq xs ys] answers [True] exactly when [ys] can be put in an
    order in which it is [defeq], member by member, to [xs]. *)

Section matching.
Context {A : Type}.
Variable eqv : A -> A -> bool.

Lemma set_defeq_pick (x : A) (xs' : list A) : forall rest seen,
  (fix pick (seen rest : list A) {struct rest} : bool :=
     match rest with
     | [] => false
     | y :: rest' =>
         (eqv x y && set_defeq eqv xs' (rev_append seen rest'))
         || pick (y :: seen) rest'
     end) seen rest = true
  <-> exists pre y post,
        rest = pre ++ y :: post /\ eqv x y = true
        /\ set_defeq eqv xs' (rev seen ++ pre ++ post) = true.
Proof.
  induction rest as [| y rest IH]; intros seen.
  - split; [discriminate |]. intros (pre & y & post & E & _).
    destruct pre; discriminate E.
  - rewrite orb_true_iff, andb_true_iff, IH, rev_append_rev. split.
    + intros [[Hxy Hs] | (pre & z & post & E & Hxz & Hs)].
      * exists [], y, rest. auto.
      * exists (y :: pre), z, post. subst rest. split; [reflexivity |].
        split; [exact Hxz |]. simpl in Hs. rewrite <- app_assoc in Hs.
        exact Hs.
    + intros (pre & z & post & E & Hxz & Hs). destruct pre as [| y' pre].
      * injection E as -> ->. left. auto.
      * injection E as -> ->. right. exists pre, z, post.
        split; [reflexivity |]. split; [exact Hxz |].
        simpl. rewrite <- app_assoc. exact Hs.
Qed.

Lemma set_defeq_cons (x : A) (xs ys : list A) :
  set_defeq eqv (x :: xs) ys = true
  <-> exists pre y post,
        ys = pre ++ y :: post /\ eqv x y = true
        /\ set_defeq eqv xs (pre ++ post) = true.
Proof. apply (set_defeq_pick x xs ys []). Qed.

Lemma set_defeq_matching : forall xs ys,
  set_defeq eqv xs ys = true
  <-> exists ys', Permutation ys ys'
                  /\ Forall2 (fun x y => eqv x y = true) xs ys'.
Proof.
  induction xs as [| x xs IH]; intros ys.
  - split.
    + destruct ys; [| discriminate]. intros _. exists []. auto.
    + intros (ys' & Hp & Hf). inversion Hf; subst.
      apply Permutation_sym, Permutation_nil in Hp. subst. reflexivity.
  - rewrite set_defeq_cons. split.
    + intros (pre & y & post & -> & Hxy & Hs).
      apply IH in Hs as (zs & Hp & Hf). exists (y :: zs). split.
      * apply Permutation_sym, Permutation_cons_app, Permutation_sym, Hp.
      * constructor; assumption.
    + intros (ys' & Hp & Hf). inversion Hf as [| ? y ? zs Hxy Hf']; subst.
      assert (Hin : In y ys)
        by (apply (Permutation_in _ (Permutation_sym Hp)); left; reflexivity).
      apply in_split in Hin as (pre & post & ->).
      exists pre, y, post. split; [reflexivity |]. split; [exact Hxy |].
      apply IH. exists zs. split; [| exact Hf'].
      apply Permutation_sym, Permutation_cons_app_inv with (a := y),
        Permutation_sym, Hp.
Qed.
End matching.

(** ** [defeq] is symmetric, and blind to the order of a set *)

Lemma Forall2_flip_Forall {A : Type} (P : A -> Prop) (R R' : A -> A -> Prop) :
  (forall x y, P x -> R x y -> R' y x) ->
  forall xs ys, Forall P xs -> Forall2 R xs ys -> Forall2 R' ys xs.
Proof.
  intros H xs ys HP HR. induction HR as [| x y xs ys Hxy HR IH].
  - constructor.
  - inversion HP; subst. constructor; [apply H; assumption | apply IH; assumption].
Qed.

Lemma set_defeq_sym_from (xs ys : list Expression) :
  Forall (fun a => forall b, defeq a b = true -> defeq b a = true) xs ->
  set_defeq defeq xs ys = true -> set_defeq defeq ys xs = true.
Proof.
  intros Hxs H. apply set_defeq_matching in H as (ys' & Hp & Hf).
  apply set_defeq_matching.
  apply (Forall2_flip_Forall _ _ (fun y x => defeq y x = true)
           (fun x y Hx Hxy => Hx y Hxy) _ _ Hxs) in Hf.
  destruct (Permutation_Forall2 (Permutation_sym Hp) Hf) as (xs' & Hp' & Hf').
  exists xs'. split; assumption.
Qed.

Lemma defeq_sym : forall a b, defeq a b = true -> defeq b a = true.
Proof.
  induction a as [n | v | xs IH | xs IH | xs IH | xs IH | n d IHn IHd | c q IHc]
    using Expression_nested_ind;
    intros b H; destruct b; try discriminate H; simpl in H |- *.
  - rewrite String.eqb_sym. exact H.
  - apply Qeq_bool_iff. apply Qeq_bool_iff in H. symmetry. exact H.
  - apply set_defeq_sym_from; assumption.
  - apply set_defeq_sym_from; assumption.
  - apply set_defeq_sym_from; assumption.
  - apply set_defeq_sym_from; assumption.
  - apply andb_true_iff in H as [H1 H2].
    rewrite (IHn _ H1), (IHd _ H2). reflexivity.
  - apply andb_true_iff in H as [H1 H2]. rewrite (IHc _ H1). simpl.
    unfold Fraction_eq in *. apply Qeq_bool_iff. apply Qeq_bool_iff in H2.
    symmetry. exact H2.
Qed.

Lemma defeq_sym_false a b : defeq a b = false -> defeq b a = false.
Proof.
  intros H. destruct (defeq b a) eqn:E; [| reflexivity].
  apply defeq_sym in E. congruence.
Qed.

Lemma Forall2_defeq_refl (l : list Expression) :
  Forall2 (fun x y => defeq x y = true) l l.
Proof. induction l; constructor; [apply defeq_refl | assumption]. Qed.

Lemma set_defeq_Permutation (l l' : list Expression) :
  Permutation l l' -> set_defeq defeq l l' = true.
Proof.
  intros H. apply set_defeq_matching. exists l.
  split; [apply Permutation_sym, H | apply Forall2_defeq_refl].
Qed.

(** ** The set [new_operands] up to the order of its members *)

Lemma forallb_Permutation {A : Type} (f : A -> bool) l l' :
  Permutation l l' -> forallb f l = true -> forallb f l' = true.
Proof.
  intros Hp H. rewrite forallb_forall in *. intros x Hx.
  apply H, (Permutation_in _ (Permutation_sym Hp)), Hx.
Qed.

Lemma existsb_Permutation {A : Type} (f : A -> bool) l l' :
  Permutation l l' -> existsb f l = existsb f l'.
Proof.
  intros Hp. destruct (existsb f l') eqn:E.
  - apply existsb_exists in E as (x & Hx & Hf). apply existsb_exists.
    exists x. split; [apply (Permutation_in _ (Permutation_sym Hp)), Hx | exact Hf].
  - destruct (existsb f l) eqn:E'; [| reflexivity].
    apply existsb_exists in E' as (x & Hx & Hf).
    assert (existsb f l' = true)
      by (apply existsb_exists; exists x; split;
          [apply (Permutation_in _ Hp), Hx | exact Hf]).
    congruence.
Qed.

Lemma distinct_Permutation l l' :
  Permutation l l' -> distinct l = true -> distinct l' = true.
Proof.
  induction 1 as [| x l l' Hp IH | x y l | l l' l'' _ IH1 _ IH2];
    simpl; intros H.
  - reflexivity.
  - apply andb_true_iff in H as [H1 H2].
    rewrite (forallb_Permutation _ _ _ Hp H1), (IH H2). reflexivity.
  - apply andb_true_iff in H as [H1 H2].
    apply andb_true_iff in H1 as [Hxy H1].
    apply andb_true_iff in H2 as [H2 H3].
    apply negb_true_iff, defeq_sym_false in Hxy.
    rewrite Hxy, H1, H2, H3. reflexivity.
  - apply IH2, IH1, H.
Qed.

Lemma operand_set_Permutation same l l' :
  Permutation l l' -> operand_set same l = true -> operand_set same l' = true.
Proof.
  intros Hp H. apply operand_set_iff in H as (H1 & H2 & H3).
  apply operand_set_iff.
  split; [apply (forallb_Permutation _ _ _ Hp H1) |].
  split; [apply (forallb_Permutation _ _ _ Hp H2) |].
  apply (distinct_Permutation _ _ Hp H3).
Qed.

Lemma add_to_Permutation x s s' :
  Permutation s s' -> Permutation (add_to x s) (add_to x s').
Proof.
  intros Hp. unfold add_to. rewrite (existsb_Permutation _ _ _ Hp).
  destruct (existsb (defeq x) s'); [exact Hp |].
  apply Permutation_app_tail, Hp.
Qed.

Lemma fold_add_to_Permutation subs : forall s s',
  Permutation s s' ->
  Permutation (fold_left (fun s sub_op => add_to sub_op s) subs s)
              (fold_left (fun s sub_op => add_to sub_op s) subs s').
Proof.
  induction subs as [| x subs IH]; intros s s' Hp; simpl; [exact Hp |].
  apply IH, add_to_Permutation, Hp.
Qed.

Lemma absorb_Permutation nested op s s' :
  Permutation s s' -> Permutation (absorb nested op s) (absorb nested op s').
Proof.
  intros Hp. unfold absorb. destruct (nested op).
  - apply fold_add_to_Permutation, Hp.
  - apply add_to_Permutation, Hp.
Qed.

Lemma collect_operands_Permutation rec nested : forall ops acc acc' new_operands,
  Permutation acc acc' ->
  collect_operands rec nested ops acc = Ok new_operands ->
  exists new_operands',
    collect_operands rec nested ops acc' = Ok new_operands'
    /\ Permutation new_operands new_operands'.
Proof.
  induction ops as [| op rest IH]; intros acc acc' new Hp H; simpl in H |- *.
  - injection H as <-. exists acc'. auto.
  - bind_inv H. fold (absorb nested a acc) in H.
    fold (absorb nested a acc').
    apply (IH _ (absorb nested a acc') _ (absorb_Permutation _ _ _ _ Hp) H).
Qed.

(** ** [simp] under any iteration order *)

Lemma simp_class_in_extends order f g :
  extends f g -> extends (simp_class_in order f) (simp_class_in order g).
Proof.
  intros Hfg e r H.
  destruct e; try exact (simp_class_extends f g Hfg _ _ H);
    cbn [simp_class_in] in *; bind_inv H;
    rewrite (collect_operands_extends _ _ _ Hfg _ _ _ Ha); exact H.
Qed.

Lemma simp_in_S order fuel hypotheses :
  extends (fun e => simp_in order fuel e hypotheses)
          (fun e => simp_in order (S fuel) e hypotheses).
Proof.
  induction fuel as [| n IH]; intros e r H; [discriminate |].
  exact (simp_class_in_extends order _ _ IH e r H).
Qed.

Lemma simp_in_fuel_le order n m hypotheses :
  n <= m ->
  extends (fun e => simp_in order n e hypotheses)
          (fun e => simp_in order m e hypotheses).
Proof.
  induction 1 as [| m Hle IH]; intros e r H.
  - exact H.
  - apply simp_in_S, IH, H.
Qed.

(** With every set iterated in the order of insertion, [simp_in] is
    [simp]: what is proved of [simp_in] for every order is proved of
    [simp]. *)
Lemma simp_in_insertion_order hypotheses e r :
  returns_in (fun _ s => s) hypotheses e r <-> returns hypotheses e r.
Proof.
  assert (H1 : forall n, extends (fun e => simp_in (fun _ s => s) n e hypotheses)
                                 (fun e => simp n e hypotheses)).
  { induction n as [| n IH]; intros x y H; [discriminate |].
    apply (simp_class_extends _ _ IH). destruct x; exact H. }
  assert (H2 : forall n, extends (fun e => simp n e hypotheses)
                                 (fun e => simp_in (fun _ s => s) n e hypotheses)).
  { induction n as [| n IH]; intros x y H; [discriminate |].
    apply (simp_class_in_extends _ _ _ IH). destruct x; exact H. }
  split; intros [n H]; exists n; [apply H1 | apply H2]; exact H.
Qed.

Lemma rebuild_in_normal iterate class_name build same new_operands r :
  (forall s, Permutation (iterate s) s) ->
  (forall l, 2 <= List.length l -> operand_set same l = true ->
             normal (build l) = true) ->
  operand_set same new_operands = true ->
  rebuild_in iterate class_name build new_operands = Ok r -> normal r = true.
Proof.
  intros Hit Hbuild Hset H.
  destruct new_operands as [| a [| b l]]; simpl in H; [discriminate | |];
    injection H as <-.
  - apply operand_set_iff in Hset as (H1 & _). simpl in H1.
    rewrite andb_true_r in H1. exact H1.
  - apply Hbuild.
    + rewrite (Permutation_length (Hit _)). simpl. lia.
    + apply (operand_set_Permutation _ _ _ (Permutation_sym (Hit _)) Hset).
Qed.

Lemma normal_operands_of_Max r subs :
  Max_operands r = Some subs -> normal r = true ->
  forallb normal subs = true /\ forallb (fun o => negb (isMax o)) subs = true.
Proof.
  intros E Hn. destruct r; try discriminate E. injection E as <-.
  cbn [normal] in Hn. apply andb_true_iff in Hn as [Hn _].
  apply andb_true_iff in Hn as [Hn H2]. apply andb_true_iff in Hn as [_ H1].
  auto.
Qed.

Lemma normal_operands_of_Min r subs :
  Min_operands r = Some subs -> normal r = true ->
  forallb normal subs = true /\ forallb (fun o => negb (isMin o)) subs = true.
Proof.
  intros E Hn. destruct r; try discriminate E. injection E as <-.
  cbn [normal] in Hn. apply andb_true_iff in Hn as [Hn _].
  apply andb_true_iff in Hn as [Hn H2]. apply andb_true_iff in Hn as [_ H1].
  auto.
Qed.

Lemma simp_class_in_normal order rec e r :
  iteration_order order ->
  (forall x y, rec x = Ok y -> normal y = true) ->
  simp_class_in order rec e = Ok r -> normal r = true.
Proof.
  intros Horder Hrec H.
  destruct e; try exact (simp_class_normal rec Hrec _ _ H);
    cbn [simp_class_in] in H; bind_inv H.
  - apply (rebuild_in_normal (order (Max operands)) "Max" Max isMax a r
             (Horder _)); [| | exact H].
    + intros l Hl Hset. rewrite normal_Max, Hset.
      apply Nat.leb_le in Hl. rewrite Hl. reflexivity.
    + apply (collect_operands_normal rec Hrec Max_operands isMax
               normal_operands_of_Max
               (fun r0 => proj1 (Max_operands_isMax r0))
               _ [] a eq_refl Ha).
  - apply (rebuild_in_normal (order (Min operands)) "Min" Min isMin a r
             (Horder _)); [| | exact H].
    + intros l Hl Hset. rewrite normal_Min, Hset.
      apply Nat.leb_le in Hl. rewrite Hl. reflexivity.
    + apply (collect_operands_normal rec Hrec Min_operands isMin
               normal_operands_of_Min
               (fun r0 => proj1 (Min_operands_isMin r0))
               _ [] a eq_refl Ha).
Qed.

Lemma simp_in_normal order fuel hypotheses :
  iteration_order order ->
  forall e r, simp_in order fuel e hypotheses = Ok r -> normal r = true.
Proof.
  intros Horder. induction fuel as [| n IH]; intros e r H; [discriminate |].
  exact (simp_class_in_normal order _ e r Horder IH H).
Qed.

(** ** Single and nested operands of [Max] and [Min] *)

Lemma defeq_both_sym a b : defeq_both a b -> defeq_both b a.
Proof. intros [H1 H2]. split; assumption. Qed.

Section one_class_in_any_order.
Variable class_name : string.
Variable build : list Expression -> Expression.
Variable nested : Expression -> option (list Expression).
Variable same : Expression -> bool.
Hypothesis nested_build : forall r subs, nested r = Some subs <-> r = build subs.
Hypothesis nested_same : forall r, nested r = None <-> same r = false.
Hypothesis normal_build : forall l,
  normal (build l) = ((2 <=? List.length l) && operand_set same l).
Hypothesis defeq_build : forall l l',
  defeq (build l) (build l') = set_defeq defeq l l'.

Lemma build_Permutation l l' :
  Permutation l l' -> defeq_both (build l) (build l').
Proof.
  intros Hp. split; rewrite defeq_build; apply set_defeq_Permutation;
    [exact Hp | apply Permutation_sym, Hp].
Qed.

Lemma rebuild_in_Permutation iterate iterate' s s' r :
  (forall s, Permutation (iterate s) s) ->
  (forall s, Permutation (iterate' s) s) ->
  Permutation s s' ->
  rebuild_in iterate class_name build s = Ok r ->
  exists r', rebuild_in iterate' class_name build s' = Ok r'
             /\ defeq_both r r'.
Proof.
  intros Hit Hit' Hp H. destruct s as [| a [| b l]]; simpl in H;
    [discriminate | |]; injection H as <-.
  - apply Permutation_length_1_inv in Hp. subst s'.
    exists a. split; [reflexivity | apply defeq_both_refl].
  - pose proof (Permutation_length Hp) as Hlen.
    destruct s' as [| a' [| b' l']]; try discriminate Hlen.
    eexists. split; [reflexivity |]. apply build_Permutation.
    apply (Permutation_trans (Hit _)), (Permutation_trans Hp),
      Permutation_sym, Hit'.
Qed.

Lemma rebuild_in_returns iterate acc :
  acc <> [] -> exists x, rebuild_in iterate class_name build acc = Ok x.
Proof.
  destruct acc as [| a [| b acc]]; [contradiction | |]; simpl; eauto.
Qed.

(** What the loop makes of a rebuilt value is the set it was rebuilt
    from. *)
Lemma absorb_rebuild_in iterate acc x :
  (forall s, Permutation (iterate s) s) ->
  operand_set same acc = true ->
  rebuild_in iterate class_name build acc = Ok x ->
  Permutation (absorb nested x []) acc.
Proof.
  intros Hit Hs H. apply operand_set_iff in Hs as (_ & Hsame & Hd).
  unfold absorb.
  destruct acc as [| a [| b l]]; simpl in H; [discriminate | |];
    injection H as <-.
  - simpl in Hsame. rewrite andb_true_r in Hsame.
    apply negb_true_iff, nested_same in Hsame. rewrite Hsame. reflexivity.
  - rewrite (proj2 (nested_build _ _) eq_refl).
    rewrite (fold_add_to_distinct _ []); [apply Hit |].
    apply (distinct_Permutation _ _ (Permutation_sym (Hit _)) Hd).
Qed.

(** A normal value that goes through the loop alone comes out of the
    rebuilding [defeq] to itself. *)
Lemma rebuild_in_absorb iterate r0 :
  (forall s, Permutation (iterate s) s) ->
  normal r0 = true ->
  exists r, rebuild_in iterate class_name build (absorb nested r0 []) = Ok r
            /\ defeq_both r r0.
Proof.
  intros Hit Hn. unfold absorb. destruct (nested r0) as [subs |] eqn:E.
  - apply nested_build in E. subst r0. rewrite normal_build in Hn.
    apply andb_true_iff in Hn as [Hl Hs].
    apply operand_set_iff in Hs as (_ & _ & Hd).
    rewrite (fold_add_to_distinct subs [] Hd). simpl.
    apply Nat.leb_le in Hl. destruct subs as [| a [| b l]]; simpl in Hl; try lia.
    eexists. split; [reflexivity |]. apply build_Permutation, Hit.
  - exists r0. split; [reflexivity | apply defeq_both_refl].
Qed.

Lemma nested_normal_operands r subs :
  nested r = Some subs -> normal r = true ->
  forallb normal subs = true
  /\ forallb (fun o => negb (same o)) subs = true.
Proof.
  intros E Hn. apply nested_build in E. subst r. rewrite normal_build in Hn.
  apply andb_true_iff in Hn as [_ Hs].
  apply operand_set_iff in Hs as (H1 & H2 & _). auto.
Qed.

Variable order : Expression -> list Expression -> list Expression.
Hypothesis order_permutes : iteration_order order.
Variable hypotheses : Hypotheses.

Lemma collected_operand_set fuel l acc :
  collect_operands (fun x => simp_in order fuel x hypotheses) nested l []
  = Ok acc ->
  operand_set same acc = true /\ (l <> [] -> acc <> []).
Proof.
  intros H. split.
  - apply (collect_operands_normal _
             (simp_in_normal order fuel hypotheses order_permutes)
             nested same nested_normal_operands
             (fun r => proj1 (nested_same r)) l [] acc eq_refl H).
  - intros Hl. destruct l as [| op l]; [contradiction |]. simpl in H.
    bind_inv H. apply (collect_operands_keeps_members _ _ _ _ _ H).
    fold (absorb nested a []). intros E.
    destruct (rebuild_in_absorb (fun s => s) a (fun s => Permutation_refl s)
                (simp_in_normal _ _ _ order_permutes _ _ Ha)) as (r & R & _).
    rewrite E in R. discriminate R.
Qed.

(** One operand: the loop over [[a]] and the rebuilding, against [a]
    itself. *)
Lemma single_operand_forward iterate n a r :
  (forall s, Permutation (iterate s) s) ->
  (new_operands <-
     collect_operands (fun x => simp_in order n x hypotheses) nested [a] [] ;;
   rebuild_in iterate class_name build new_operands) = Ok r ->
  exists r0, simp_in order n a hypotheses = Ok r0 /\ defeq_both r r0.
Proof.
  intros Hit H. bind_inv H. simpl in Ha. bind_inv Ha. injection Ha as <-.
  fold (absorb nested a1 []) in H. exists a1. split; [reflexivity |].
  destruct (rebuild_in_absorb iterate a1 Hit
              (simp_in_normal _ _ _ order_permutes _ _ Ha0)) as (r' & R & D).
  rewrite R in H. injection H as <-. exact D.
Qed.

Lemma single_operand_backward iterate n a r0 :
  (forall s, Permutation (iterate s) s) ->
  simp_in order n a hypotheses = Ok r0 ->
  exists r,
    (new_operands <-
       collect_operands (fun x => simp_in order n x hypotheses) nested [a] [] ;;
     rebuild_in iterate class_name build new_operands) = Ok r
    /\ defeq_both r r0.
Proof.
  intros Hit H. simpl. rewrite H. simpl. fold (absorb nested r0 []).
  apply (rebuild_in_absorb iterate r0 Hit),
    (simp_in_normal _ _ _ order_permutes _ _ H).
Qed.

(** An operand of the same class, simplified first, against its operands
    in its place. *)
Lemma nested_operand_forward_in inner outer flat n l rest x new_operands r :
  (forall s, Permutation (inner s) s) ->
  (forall s, Permutation (outer s) s) ->
  (forall s, Permutation (flat s) s) ->
  (acc <- collect_operands (fun x => simp_in order n x hypotheses) nested l [] ;;
   rebuild_in inner class_name build acc) = Ok x ->
  collect_operands (fun x => simp_in order (S n) x hypotheses) nested rest
    (absorb nested x []) = Ok new_operands ->
  rebuild_in outer class_name build new_operands = Ok r ->
  exists r',
    (acc <- collect_operands (fun x => simp_in order (S n) x hypotheses)
              nested (l ++ rest) [] ;;
     rebuild_in flat class_name build acc) = Ok r'
    /\ defeq_both r r'.
Proof.
  intros Hinner Houter Hflat Hx H Hr. bind_inv Hx. rename a into acc.
  destruct (collected_operand_set n l acc Ha) as [Hset _].
  pose proof (absorb_rebuild_in inner acc x Hinner Hset Hx) as Hp.
  destruct (collect_operands_Permutation _ _ _ _ _ _ Hp H)
    as (new' & Hnew' & Hp').
  destruct (rebuild_in_Permutation outer flat _ _ _ Houter Hflat Hp' Hr)
    as (r' & Hr' & D).
  exists r'. split; [| exact D].
  rewrite collect_operands_app.
  rewrite (collect_operands_extends _ _ nested (simp_in_S order n hypotheses)
             _ _ _ Ha). cbn [bind]. rewrite Hnew'. exact Hr'.
Qed.

Lemma nested_operand_backward_in inner outer flat m l rest r' :
  (forall s, Permutation (inner s) s) ->
  (forall s, Permutation (outer s) s) ->
  (forall s, Permutation (flat s) s) ->
  l <> [] ->
  (acc <- collect_operands (fun x => simp_in order m x hypotheses)
            nested (l ++ rest) [] ;;
   rebuild_in flat class_name build acc) = Ok r' ->
  exists x r,
    (acc <- collect_operands (fun x => simp_in order m x hypotheses) nested l [] ;;
     rebuild_in inner class_name build acc) = Ok x
    /\ (acc <- collect_operands (fun x => simp_in order (S m) x hypotheses)
                 nested rest (absorb nested x []) ;;
        rebuild_in outer class_name build acc) = Ok r
    /\ defeq_both r r'.
Proof.
  intros Hinner Houter Hflat Hl H. bind_inv H. rename a into new'.
  rewrite collect_operands_app in Ha. bind_inv Ha. rename a into acc.
  destruct (collected_operand_set m l acc Ha0) as [Hset Hne].
  destruct (rebuild_in_returns inner acc (Hne Hl)) as [x Hx].
  pose proof (absorb_rebuild_in inner acc x Hinner Hset Hx) as Hp.
  destruct (collect_operands_Permutation _ _ _ _ _ _ (Permutation_sym Hp) Ha)
    as (new & Hnew & Hp').
  destruct (rebuild_in_Permutation flat outer _ _ _ Hflat Houter Hp' H)
    as (r & Hr & D).
  exists x, r. cbn [bind]. split; [exact Hx |]. split.
  - rewrite (collect_operands_extends _ _ nested (simp_in_S order m hypotheses)
               _ _ _ Hnew). exact Hr.
  - apply defeq_both_sym, D.
Qed.
End one_class_in_any_order.

Lemma defeq_Max l l' : defeq (Max l) (Max l') = set_defeq defeq l l'.
Proof. reflexivity. Qed.

Lemma defeq_Min l l' : defeq (Min l) (Min l') = set_defeq defeq l l'.
Proof. reflexivity. Qed.

(** X4: a [Max], a [Min] or an [Add] of a single operand simplifies to what
    the operand simplifies to, in whatever order the sets are iterated:
    whenever one of the two returns, so does the other, and the two results
    are [defeq] to each other. *)
Theorem simp_of_a_single_operand :
  forall (order : Expression -> list Expression -> list Expression)
         (hypotheses : Hypotheses) (a : Expression),
    iteration_order order ->
    (forall r,
        returns_in order hypotheses (Max [a]) r
        \/ returns_in order hypotheses (Min [a]) r
        \/ returns_in order hypotheses (Add [a]) r ->
        exists r0, returns_in order hypotheses a r0 /\ defeq_both r r0)
    /\ (forall r0,
          returns_in order hypotheses a r0 ->
          (exists r, returns_in order hypotheses (Max [a]) r /\ defeq_both r r0)
          /\ (exists r,
                 returns_in order hypotheses (Min [a]) r /\ defeq_both r r0)
          /\ (exists r,
                 returns_in order hypotheses (Add [a]) r /\ defeq_both r r0)).
Proof.
  intros order hypotheses a Horder.
  assert (M : forall n r,
             simp_in order (S n) (Max [a]) hypotheses = Ok r ->
             exists r0, simp_in order n a hypotheses = Ok r0 /\ defeq_both r r0).
  { intros n r H.
    apply (single_operand_forward "Max" Max Max_operands isMax
             Max_operands_build normal_Max defeq_Max
             order Horder hypotheses (order (Max [a])) n a r (Horder _) H). }
  assert (M' : forall n r0,
             simp_in order n a hypotheses = Ok r0 ->
             exists r, simp_in order (S n) (Max [a]) hypotheses = Ok r
                       /\ defeq_both r r0).
  { intros n r0 H.
    apply (single_operand_backward "Max" Max Max_operands isMax
             Max_operands_build normal_Max defeq_Max
             order Horder hypotheses (order (Max [a])) n a r0 (Horder _) H). }
  split.
  - intros r [[n H] | [[n H] | [n H]]].
    + destruct n as [| n]; [discriminate H |].
      destruct (M n r H) as (r0 & H0 & D). exists r0. split; [exists n |]; assumption.
    + destruct n as [| n]; [discriminate H |].
      destruct (single_operand_forward "Min" Min Min_operands isMin
                  Min_operands_build normal_Min defeq_Min
                  order Horder hypotheses (order (Min [a])) n a r (Horder _) H)
        as (r0 & H0 & D).
      exists r0. split; [exists n |]; assumption.
    + destruct n as [| [| n]]; try discriminate H.
      destruct (M n r H) as (r0 & H0 & D). exists r0. split; [exists n |]; assumption.
  - intros r0 [n H]. split; [| split].
    + destruct (M' n r0 H) as (r & Hr & D). exists r. split; [exists (S n) |]; assumption.
    + destruct (single_operand_backward "Min" Min Min_operands isMin
                  Min_operands_build normal_Min defeq_Min
                  order Horder hypotheses (order (Min [a])) n a r0 (Horder _) H)
        as (r & Hr & D).
      exists r. split; [exists (S n) |]; assumption.
    + destruct (M' n r0 H) as (r & Hr & D). exists r.
      split; [exists (S (S n)) |]; assumption.
Qed.

Lemma simp_of_a_single_operand_witness :
  let order := fun (_ : Expression) (s : list Expression) => rev s in
  let a := Add [Var "x"; Constant 2; Var "y"] in
  (forall r,
      returns_in order [] (Max [a]) r \/ returns_in order [] (Min [a]) r
      \/ returns_in order [] (Add [a]) r ->
      exists r0, returns_in order [] a r0 /\ defeq_both r r0)
  /\ (forall r0,
        returns_in order [] a r0 ->
        (exists r, returns_in order [] (Max [a]) r /\ defeq_both r r0)
        /\ (exists r, returns_in order [] (Min [a]) r /\ defeq_both r r0)
        /\ (exists r, returns_in order [] (Add [a]) r /\ defeq_both r r0)).
Proof.
  apply (simp_of_a_single_operand (fun _ s => rev s) []
           (Add [Var "x"; Constant 2; Var "y"])).
  intros self s. apply Permutation_sym, Permutation_rev.
Defined.

(** The order is seen: with every set iterated against the order of
    insertion, [Max(Max(x, y))] returns [Max(x, y)] where [Max(x, y)]
    returns [Max(y, x)]. *)
Example single_operand_in_reverse_order :
  simp_in (fun _ s => rev s) 3 (Max [Max [Var "x"; Var "y"]]) []
  = Ok (Max [Var "x"; Var "y"])
  /\ simp_in (fun _ s => rev s) 3 (Max [Var "x"; Var "y"]) []
     = Ok (Max [Var "y"; Var "x"]).
Proof. split; reflexivity. Qed.


(** X5: nesting is flattened, in whatever order the sets are iterated.  For
    a non-empty list [l], [Max(Max(l), rest...)] simplifies to what
    [Max(l..., rest...)] simplifies to, and the same for [Min]: whenever one
    of the two returns, so does the other, and the two results are [defeq]
    to each other. *)
Theorem simp_flattens_a_nested_operand :
  forall (order : Expression -> list Expression -> list Expression)
         (hypotheses : Hypotheses) (l rest : list Expression),
    iteration_order order ->
    l <> [] ->
    (forall r,
        returns_in order hypotheses (Max (Max l :: rest)) r ->
        exists r',
          returns_in order hypotheses (Max (l ++ rest)) r' /\ defeq_both r r')
    /\ (forall r',
          returns_in order hypotheses (Max (l ++ rest)) r' ->
          exists r,
            returns_in order hypotheses (Max (Max l :: rest)) r
            /\ defeq_both r r')
    /\ (forall r,
          returns_in order hypotheses (Min (Min l :: rest)) r ->
          exists r',
            returns_in order hypotheses (Min (l ++ rest)) r'
            /\ defeq_both r r')
    /\ (forall r',
          returns_in order hypotheses (Min (l ++ rest)) r' ->
          exists r,
            returns_in order hypotheses (Min (Min l :: rest)) r
            /\ defeq_both r r').
Proof.
  intros order hypotheses l rest Horder Hl.
  split; [| split; [| split]].
  - intros r [n H]. destruct n as [| [| n]]; try discriminate H.
    change ((acc <- collect_operands (fun x => simp_in order (S n) x hypotheses)
                      Max_operands (Max l :: rest) [] ;;
             rebuild_in (order (Max (Max l :: rest))) "Max" Max acc) = Ok r)
      in H.
    bind_inv H. cbn [collect_operands] in Ha. bind_inv Ha.
    fold (absorb Max_operands a0 []) in Ha.
    destruct (nested_operand_forward_in "Max" Max Max_operands isMax
                Max_operands_build Max_operands_isMax normal_Max defeq_Max
                order Horder hypotheses
                (order (Max l)) (order (Max (Max l :: rest)))
                (order (Max (l ++ rest))) n l rest a0 a r
                (Horder _) (Horder _) (Horder _) Ha0 Ha H)
      as (r' & Hr' & D).
    exists r'. split; [exists (S (S n)); exact Hr' | exact D].
  - intros r' [n H]. destruct n as [| m]; [discriminate H |].
    destruct (nested_operand_backward_in "Max" Max Max_operands isMax
                Max_operands_build Max_operands_isMax normal_Max defeq_Max
                order Horder hypotheses
                (order (Max l)) (order (Max (Max l :: rest)))
                (order (Max (l ++ rest))) m l rest r'
                (Horder _) (Horder _) (Horder _) Hl H)
      as (x & r & Hx & Hr & D).
    change (simp_in order (S m) (Max l) hypotheses = Ok x) in Hx.
    exists r. split; [| exact D]. exists (S (S m)).
    change ((acc <- collect_operands (fun x => simp_in order (S m) x hypotheses)
                      Max_operands (Max l :: rest) [] ;;
             rebuild_in (order (Max (Max l :: rest))) "Max" Max acc) = Ok r).
    cbn [collect_operands]. rewrite Hx. cbn [bind].
    fold (absorb Max_operands x []). exact Hr.
  - intros r [n H]. destruct n as [| [| n]]; try discriminate H.
    change ((acc <- collect_operands (fun x => simp_in order (S n) x hypotheses)
                      Min_operands (Min l :: rest) [] ;;
             rebuild_in (order (Min (Min l :: rest))) "Min" Min acc) = Ok r)
      in H.
    bind_inv H. cbn [collect_operands] in Ha. bind_inv Ha.
    fold (absorb Min_operands a0 []) in Ha.
    destruct (nested_operand_forward_in "Min" Min Min_operands isMin
                Min_operands_build Min_operands_isMin normal_Min defeq_Min
                order Horder hypotheses
                (order (Min l)) (order (Min (Min l :: rest)))
                (order (Min (l ++ rest))) n l rest a0 a r
                (Horder _) (Horder _) (Horder _) Ha0 Ha H)
      as (r' & Hr' & D).
    exists r'. split; [exists (S (S n)); exact Hr' | exact D].
  - intros r' [n H]. destruct n as [| m]; [discriminate H |].
    destruct (nested_operand_backward_in "Min" Min Min_operands isMin
                Min_operands_build Min_operands_isMin normal_Min defeq_Min
                order Horder hypotheses
                (order (Min l)) (order (Min (Min l :: rest)))
                (order (Min (l ++ rest))) m l rest r'
                (Horder _) (Horder _) (Horder _) Hl H)
      as (x & r & Hx & Hr & D).
    change (simp_in order (S m) (Min l) hypotheses = Ok x) in Hx.
    exists r. split; [| exact D]. exists (S (S m)).
    change ((acc <- collect_operands (fun x => simp_in order (S m) x hypotheses)
                      Min_operands (Min l :: rest) [] ;;
             rebuild_in (order (Min (Min l :: rest))) "Min" Min acc) = Ok r).
    cbn [collect_operands]. rewrite Hx. cbn [bind].
    fold (absorb Min_operands x []). exact Hr.
Qed.

Lemma simp_flattens_a_nested_operand_witness :
  let order := fun (_ : Expression) (s : list Expression) => rev s in
  let l := [Var "a"; Constant 2] in
  let rest := [Power (Var "b") 3; Var "a"] in
  (forall r,
      returns_in order [] (Max (Max l :: rest)) r ->
      exists r', returns_in order [] (Max (l ++ rest)) r' /\ defeq_both r r')
  /\ (forall r',
        returns_in order [] (Max (l ++ rest)) r' ->
        exists r,
          returns_in order [] (Max (Max l :: rest)) r /\ defeq_both r r')
  /\ (forall r,
        returns_in order [] (Min (Min l :: rest)) r ->
        exists r',
          returns_in order [] (Min (l ++ rest)) r' /\ defeq_both r r')
  /\ (forall r',
        returns_in order [] (Min (l ++ rest)) r' ->
        exists r,
          returns_in order [] (Min (Min l :: rest)) r /\ defeq_both r r').
Proof.
  apply (simp_flattens_a_nested_operand (fun _ s => rev s) []
           [Var "a"; Constant 2] [Power (Var "b") 3; Var "a"]).
  - intros self s. apply Permutation_sym, Permutation_rev.
  - discriminate.
Defined.


(** X16: the Japanese bracket, in whatever order the sets are iterated.
    When [Power(x, 2)] simplifies to [m], [bracket(x)] simplifies to
    [Constant(1)] if [m] is a constant, and otherwise to the power with
    exponent [1/2] of a [Max] whose operands are [Constant(1)] and [m] in
    some order, which makes it [defeq], in both directions, to
    [Max(Constant(1), m)]. *)
Theorem bracket_normal_form :
  forall (order : Expression -> list Expression -> list Expression)
         (hypotheses : Hypotheses) (x m : Expression),
    iteration_order order ->
    returns_in order hypotheses (Power x 2) m ->
    exists r,
      returns_in order hypotheses (bracket x) r
      /\ (if isConstant m then r = Constant 1
          else exists ops,
                 r = Power (Max ops) (1 # 2)
                 /\ Permutation ops [Constant 1; m]
                 /\ defeq_both (Max ops) (Max [Constant 1; m])).
Proof.
  intros order hypotheses x m Horder [n H].
  pose proof (simp_in_normal order _ _ Horder _ _ H) as Hn.
  destruct n as [| n]; [discriminate H |].
  assert (Hm : (exists v, m = Constant v) \/ (exists c p, m = Power c p)
               \/ (exists gs, m = Mul gs)).
  { apply (Power_simp_classes (fun e => simp_in order n e hypotheses) x 2%Q m);
      [| reflexivity | exact H].
    intros fs r' Hr'. destruct n as [| n']; [discriminate Hr' |].
    apply (Mul_simp_is_Mul _ _ _ Hr'). }
  set (ops := order (Max [Constant 1; Power x 2]) [Constant 1; m]).
  exists (if isConstant m then Constant 1 else Power (Max ops) (1 # 2)).
  split.
  - exists (3 + S n). unfold bracket, sqrt.
    change (Power_simp (fun e => simp_in order (2 + S n) e hypotheses)
              (Add [Constant 1; Power x 2]) (1 # 2)%Q
            = Ok (if isConstant m then Constant 1
                  else Power (Max ops) (1 # 2))).
    unfold Power_simp.
    change (simp_in order (2 + S n) (Add [Constant 1; Power x 2]) hypotheses)
      with (new_operands <-
              collect_operands (fun e => simp_in order (S n) e hypotheses)
                Max_operands [Constant 1; Power x 2] [] ;;
            rebuild_in (order (Max [Constant 1; Power x 2])) "Max" Max
              new_operands).
    cbn [collect_operands]. rewrite H.
    change (simp_in order (S n) (Constant 1) hypotheses) with (Ok (Constant 1)).
    cbn [bind Max_operands].
    destruct Hm as [[v ->] | [(c & p & ->) | [gs ->]]].
    + simpl in Hn. rewrite (isOne_eq _ Hn). reflexivity.
    + assert (Hlen : List.length ops = 2)
        by (unfold ops; rewrite (Permutation_length (Horder _ _)); reflexivity).
      cbn. fold ops. destruct ops as [| o1 [| o2 [| o3 ops']]];
        try discriminate Hlen. reflexivity.
    + assert (Hlen : List.length ops = 2)
        by (unfold ops; rewrite (Permutation_length (Horder _ _)); reflexivity).
      cbn. fold ops. destruct ops as [| o1 [| o2 [| o3 ops']]];
        try discriminate Hlen. reflexivity.
  - destruct (isConstant m); [reflexivity |].
    exists ops. split; [reflexivity |]. split; [apply Horder |].
    split; rewrite defeq_Max; apply set_defeq_Permutation;
      [apply Horder | apply Permutation_sym, Horder].
Qed.

Lemma bracket_normal_form_witness :
  let order := fun (_ : Expression) (s : list Expression) => rev s in
  exists r,
    returns_in order [] (bracket (Div (Var "x") (Constant 2))) r
    /\ exists ops,
         r = Power (Max ops) (1 # 2)
         /\ Permutation ops [Constant 1; Mul [Power (Var "x") 2]]
         /\ defeq_both (Max ops) (Max [Constant 1; Mul [Power (Var "x") 2]]).
Proof.
  apply (bracket_normal_form (fun _ s => rev s) []
           (Div (Var "x") (Constant 2)) (Mul [Power (Var "x") 2])).
  - intros self s. apply Permutation_sym, Permutation_rev.
  - exists 7. reflexivity.
Defined.

(** ** The cases of the Littlewood-Paley property *)

Lemma combinations2_complete {A : Type} (p q t : list A) i j :
  In (i, j) (combinations2 (p ++ i :: q ++ j :: t)).
Proof.
  induction p as [| a p IH]; simpl.
  - apply in_or_app. left. apply in_map, in_elt.
  - apply in_or_app. right. exact IH.
Qed.

Lemma Forall2_map_In {A B : Type} (P : A -> B -> Prop) (f : A -> B) l :
  (forall x, In x l -> P x (f x)) -> Forall2 P l (map f l).
Proof.
  induction l as [| a l IH]; intros H; simpl; constructor.
  - apply H. left. reflexivity.
  - apply IH. intros x Hx. apply H. right. exact Hx.
Qed.

(** X11: for [n >= 2] magnitudes, [LP_property] returns a disjunction of
    [n (n - 1) / 2] cases, one for every pair [(i, j)] with [i] before [j]
    among the arguments.  The conjuncts of the case of [(i, j)] are the
    estimate with left side [i], operator [~] and right side [j], and, for
    every argument [k] that is [defeq] neither to [i] nor to [j], the
    estimate with left side [k], operator [<~] and right side [i], and no
    others; a case has at most [n - 1] conjuncts.  The conjuncts are given
    as a set: neither their order nor how often one occurs is stated. *)
Theorem LP_property_shape :
  forall args : list Expression,
    2 <= List.length args ->
    exists s pairs,
      LP_property args = Ok s
      /\ 2 * List.length pairs = List.length args * (List.length args - 1)
      /\ (forall i j,
             In (i, j) pairs
             <-> exists p q t, args = p ++ i :: q ++ j :: t)
      /\ Forall2
           (fun pr case =>
              (forall c,
                  In c (conjuncts case)
                  <-> c = Est (mkEstimate (fst pr) op_asymp (snd pr))
                      \/ exists k,
                           In k args
                           /\ defeq k (fst pr) = false
                           /\ defeq k (snd pr) = false
                           /\ c = Est (mkEstimate k op_lesssim (fst pr)))
              /\ List.length (conjuncts case) + 1 <= List.length args)
           pairs (disjuncts s).
Proof.
  intros args Hn. unfold LP_property.
  assert (E : (1 <? List.length args) = true) by (apply Nat.ltb_lt; lia).
  rewrite E. eexists. exists (combinations2 args).
  split; [reflexivity |]. split; [apply combinations2_length |]. split.
  - intros i j. split.
    + apply combinations2_split.
    + intros (p & q & t & ->). apply combinations2_complete.
  - cbn [disjuncts]. apply Forall2_map_In. intros [i j] Hin.
    cbn [fst snd conjuncts]. rewrite LP_conjuncts_filter.
    split.
    + intros c. cbn [In]. rewrite in_map_iff.
      split.
      * intros [<- | (k & <- & Hk)]; [left; reflexivity | right].
        apply filter_In in Hk as [Hk Hkeep].
        apply andb_true_iff in Hkeep as [H1 H2].
        apply negb_true_iff in H1, H2. exists k. auto.
      * intros [-> | (k & Hk & H1 & H2 & ->)]; [left; reflexivity | right].
        exists k. split; [reflexivity |]. apply filter_In.
        split; [exact Hk |]. rewrite H1, H2. reflexivity.
    + destruct (combinations2_split _ _ _ Hin) as (p & q & t & Hargs).
      cbn [List.length]. rewrite length_map.
      pose proof (filter_drops_two
                    (fun k => negb (defeq k i) && negb (defeq k j))
                    p i q j t) as F.
      rewrite <- Hargs in F.
      rewrite !defeq_refl in F. cbn [negb andb] in F.
      rewrite andb_false_r in F. specialize (F eq_refl eq_refl). lia.
Qed.

Lemma LP_property_shape_witness :
  let args := [Var "N1"; Constant 2; Var "N1"; Max [Var "N2"; Var "N3"]] in
  exists s pairs,
    LP_property args = Ok s
    /\ 2 * List.length pairs = List.length args * (List.length args - 1)
    /\ (forall i j,
           In (i, j) pairs
           <-> exists p q t, args = p ++ i :: q ++ j :: t)
    /\ Forall2
         (fun pr case =>
            (forall c,
                In c (conjuncts case)
                <-> c = Est (mkEstimate (fst pr) op_asymp (snd pr))
                    \/ exists k,
                         In k args
                         /\ defeq k (fst pr) = false
                         /\ defeq k (snd pr) = false
                         /\ c = Est (mkEstimate k op_lesssim (fst pr)))
            /\ List.length (conjuncts case) + 1 <= List.length args)
         pairs (disjuncts s).
Proof.
  apply (LP_property_shape
           [Var "N1"; Constant 2; Var "N1"; Max [Var "N2"; Var "N3"]]).
  simpl. lia.
Defined.

(** X18: for [n >= 2] variables with pairwise different names,
    [LP_property] returns [n (n - 1) / 2] cases; every pair [(i, j)] with
    [i] before [j] has its case, and every case is the case of such a
    pair.  The conjuncts of the case of [(i, j)] are, in some order, the
    estimate with left side [i], operator [~] and right side [j], and, for
    every other variable [k], the estimate with left side [k], operator
    [<~] and right side [i]: exactly [n - 1] conjuncts. *)
Theorem LP_property_of_different_variables :
  forall names : list string,
    NoDup names -> 2 <= List.length names ->
    exists s,
      LP_property (map Var names) = Ok s
      /\ 2 * List.length (disjuncts s)
         = List.length names * (List.length names - 1)
      /\ (forall p i q j t,
             names = p ++ i :: q ++ j :: t ->
             exists case,
               In case (disjuncts s)
               /\ Permutation (conjuncts case)
                    (Est (mkEstimate (Var i) op_asymp (Var j))
                     :: map (fun k =>
                               Est (mkEstimate (Var k) op_lesssim (Var i)))
                          (p ++ q ++ t)))
      /\ Forall (fun case =>
                   List.length (conjuncts case) = List.length names - 1
                   /\ exists p i q j t,
                        names = p ++ i :: q ++ j :: t
                        /\ Permutation (conjuncts case)
                             (Est (mkEstimate (Var i) op_asymp (Var j))
                              :: map (fun k =>
                                        Est (mkEstimate (Var k) op_lesssim
                                                        (Var i)))
                                   (p ++ q ++ t)))
                (disjuncts s).
Proof.
  intros names Hnd Hn. unfold LP_property.
  assert (E : (1 <? List.length (map Var names)) = true)
    by (rewrite length_map; apply Nat.ltb_lt; lia).
  rewrite E. eexists. split; [reflexivity |]. cbn [disjuncts].
  split; [| split].
  - rewrite length_map, combinations2_length, length_map. reflexivity.
  - intros p i q j t Hnames. subst names.
    exists (And (LP_conjuncts (map Var (p ++ i :: q ++ j :: t))
                              (Var i) (Var j))).
    split.
    + apply in_map_iff. exists (Var i, Var j). split; [reflexivity |].
      rewrite !map_app. cbn [map]. rewrite !map_app. cbn [map].
      apply combinations2_complete.
    + cbn [conjuncts].
      rewrite (LP_conjuncts_of_different_variables p i q j t Hnd).
      apply Permutation_refl.
  - apply Forall_forall. intros case Hc.
    apply in_map_iff in Hc as ([ei ej] & <- & Hin).
    rewrite combinations2_map in Hin.
    apply in_map_iff in Hin as ([i j] & [= <- <-] & Hin).
    destruct (combinations2_split _ _ _ Hin) as (p & q & t & Hnames).
    subst names. cbn [fst snd conjuncts].
    rewrite (LP_conjuncts_of_different_variables p i q j t Hnd).
    split.
    + cbn [List.length]. rewrite length_map, !length_app. cbn [List.length].
      rewrite !length_app. cbn [List.length]. lia.
    + exists p, i, q, j, t. split; [reflexivity | apply Permutation_refl].
Qed.

Lemma LP_property_of_different_variables_witness :
  let names := ["N1"; "N2"; "N3"; "N4"; "N5"] in
  exists s,
    LP_property (map Var names) = Ok s
    /\ 2 * List.length (disjuncts s)
       = List.length names * (List.length names - 1)
    /\ (forall p i q j t,
           names = p ++ i :: q ++ j :: t ->
           exists case,
             In case (disjuncts s)
             /\ Permutation (conjuncts case)
                  (Est (mkEstimate (Var i) op_asymp (Var j))
                   :: map (fun k =>
                             Est (mkEstimate (Var k) op_lesssim (Var i)))
                        (p ++ q ++ t)))
    /\ Forall (fun case =>
                 List.length (conjuncts case) = List.length names - 1
                 /\ exists p i q j t,
                      names = p ++ i :: q ++ j :: t
                      /\ Permutation (conjuncts case)
                           (Est (mkEstimate (Var i) op_asymp (Var j))
                            :: map (fun k =>
                                      Est (mkEstimate (Var k) op_lesssim
                                                      (Var i)))
                                 (p ++ q ++ t)))
              (disjuncts s).
Proof.
  apply (LP_property_of_different_variables ["N1"; "N2"; "N3"; "N4"; "N5"]).
  - repeat constructor; simpl; intuition discriminate.
  - simpl. lia.
Defined.
